(** * Clash.Meta, adapter/outboundgroup/groupbase.go

    A shallow embedding of [GroupBase]: the resolution of a proxy group's
    backend list ([GetProxies]), the latency fan-out ([URLTest]), the dial
    failure tracker ([onDialFailed], [onDialSuccess]) and the single-flight
    health check ([healthCheck]).

    Conventions of the embedding.
    - Go packages are Rocq modules: [C] is package constant, [types] is
      package constant/provider, [regexp2] the regular expression library,
      [gostrings] package strings, [gotime] package time.
    - The struct [GroupBase] is a record; the methods thread it explicitly.
      Slice indexing that panics in Go when out of range makes the monad
      [M] fail.
    - Goroutines are explicit: a method that says [go f()] returns the
      spawned goroutine, and [runGoroutine] executes one to completion.
      The development reasons about sequential executions; for [URLTest]
      every order in which the probing goroutines take the lock is covered.
    - Logging ([log.Debugln], [log.Warnln]) has no effect on the state and
      is left out. *)

From Stdlib Require Import ZArith Lia Ascii.
From stdpp Require Import base option list gmap sets strings.

Local Open Scope Z_scope.

#[local] Set Warnings "-clear-no-such-hyp".

(** ** Package strings *)
Module gostrings.

Fixpoint HasPrefix (s prefix : string) : bool :=
  match prefix, s with
  | EmptyString, _ => true
  | String _ _, EmptyString => false
  | String c prefix', String d s' =>
      if Ascii.eqb c d then HasPrefix s' prefix' else false
  end.

Fixpoint Contains (s substr : string) : bool :=
  HasPrefix s substr ||
  match s with
  | EmptyString => false
  | String _ s' => Contains s' substr
  end.

(** [Split s sep] for a separator of one byte. *)
Fixpoint Split (s : string) (sep : Ascii.ascii) : list string :=
  match s with
  | EmptyString => [EmptyString]
  | String c s' =>
      if Ascii.eqb c sep then EmptyString :: Split s' sep
      else match Split s' sep with
           | hd :: tl => String c hd :: tl
           | [] => [String c EmptyString]
           end
  end.

(** [Join elems sep] for a separator of one byte. *)
Fixpoint Join (elems : list string) (sep : Ascii.ascii) : string :=
  match elems with
  | [] => EmptyString
  | [s] => s
  | s :: rest => s +:+ String sep (Join rest sep)
  end.

(** [IndexByte s c >= 0] *)
Fixpoint hasByte (s : string) (c : Ascii.ascii) : bool :=
  match s with
  | EmptyString => false
  | String d s' => Ascii.eqb d c || hasByte s' c
  end.

End gostrings.

(** ** Package time: instants and durations in nanoseconds *)
Module gotime.

Definition Time := Z.
Definition Duration := Z.

Definition Nanosecond : Duration := 1.
Definition Millisecond : Duration := 1000000.
Definition Second : Duration := 1000000000.

Definition minDuration : Duration := - 2 ^ 63.
Definition maxDuration : Duration := 2 ^ 63 - 1.

(** [t.Sub(u)]: the difference, saturated to the range of [Duration]. *)
Definition Sub (t u : Time) : Duration :=
  if t - u <? minDuration then minDuration
  else if maxDuration <? t - u then maxDuration
  else t - u.

(** [time.Since(t)] with the clock reading [now]. *)
Definition Since (now t : Time) : Duration := Sub now t.

End gotime.

(** ** The regular expression library *)
Module regexp2.

(** A compiled pattern, seen through [FindStringMatch]: the matched text,
    or [None] where Go returns a nil match (no match, or an error). *)
Record Regexp := { FindStringMatch : string → option string }.

End regexp2.

(** ** Package context *)
Module context.
Record Context := { Deadline : option gotime.Time }.
End context.

(** ** Package constant *)
Module C.

(** Modelled from the spec: the declaration of [AdapterType] is not part
    of the sources; the spec gives the backend classification as the
    closed enumeration Direct, Reject, Pass, Compatible, Routed, where
    [Routed] stands for every kind that carries traffic to an upstream. *)
Inductive AdapterType := Direct | Reject | Compatible | Pass | Routed.

#[global] Instance AdapterType_eq_dec : EqDecision AdapterType.
Proof. solve_decision. Defined.

(** The interface [C.Proxy], as far as [GroupBase] uses it: [Name()] and
    [URLTest(ctx, url)], which returns a delay or an error. *)
Record Proxy := {
  Name : string;
  URLTest : context.Context → string → Z + string
}.

End C.

(** ** Package constant/provider *)
Module types.

Inductive VehicleType := File | HTTP | Compatible.

#[global] Instance VehicleType_eq_dec : EqDecision VehicleType.
Proof. solve_decision. Defined.

(** The interface [provider.ProxyProvider], as far as [GroupBase] uses
    it. [Touch] and [HealthCheck] act on the provider's own state. *)
Class ProxyProvider (P : Type) := {
  Touch : P → P;
  Proxies : P → list C.Proxy;
  Version : P → N;
  VehicleType_of : P → VehicleType;
  HealthCheck : P → P
}.

End types.

(** ** The proxy set of a filter: the two nested loops of [GetProxies] *)
Section selection.

Implicit Types (filterReg : regexp2.Regexp) (p : C.Proxy).

(** [mat != nil] for [mat, _ := filterReg.FindStringMatch(name)]. *)
Definition matched filterReg (name : string) : bool :=
  match regexp2.FindStringMatch filterReg name with
  | Some _ => true
  | None => false
  end.

(** The body of the inner loop: [proxiesSet] and [newProxies]. *)
Definition selectStep filterReg
    (acc : gset string * list C.Proxy) p : gset string * list C.Proxy :=
  let name := C.Name p in
  if matched filterReg name then
    if decide (name ∈ acc.1) then acc
    else ({[name]} ∪ acc.1, acc.2 ++ [p])
  else acc.

Definition selectMatched (filterRegs : list regexp2.Regexp)
    (proxies : list C.Proxy) (acc : gset string * list C.Proxy) :=
  foldl (λ acc filterReg, foldl (selectStep filterReg) acc proxies)
        acc filterRegs.

(** The loop "add not matched proxies at the end". *)
Definition appendStep (acc : gset string * list C.Proxy) p :=
  let name := C.Name p in
  if decide (name ∈ acc.1) then acc
  else ({[name]} ∪ acc.1, acc.2 ++ [p]).

Definition appendUnmatched (proxies : list C.Proxy)
    (acc : gset string * list C.Proxy) :=
  foldl appendStep acc proxies.

(** Lines 93-112: the filtered list of one provider. *)
Definition filterProxies (filterRegs : list regexp2.Regexp)
    (proxies : list C.Proxy) : list C.Proxy :=
  (selectMatched filterRegs proxies (∅, [])).2.

(** Lines 126-146: the second pass over the combined list. *)
Definition crossProviderPass (filterRegs : list regexp2.Regexp)
    (proxies : list C.Proxy) : list C.Proxy :=
  (appendUnmatched proxies (selectMatched filterRegs proxies (∅, []))).2.

End selection.

(** ** The group state and its methods *)
Section GroupBase.

Context {P : Type} `{!types.ProxyProvider P}.

(** Package tunnel is not part of the sources: [tunnel.Proxies()], the
    fallback registry, is a parameter. Indexing a Go map is total; the
    registry is taken to hold a backend under every key that is asked. *)
Variable tunnel_Proxies : string → C.Proxy.

(** The regular expression compiler; [None] where [MustCompile] panics. *)
Variable regexp2_MustCompile : string → option regexp2.Regexp.

Record GroupBase := {
  Base_name : string;
  filterRegs : list regexp2.Regexp;
  providers : list P;
  failedTimes : Z;
  failedTime : gotime.Time;
  failedTesting : bool;
  proxies : list (list C.Proxy);
  versions : list N
}.

Record GroupBaseOption := {
  opt_name : string;
  opt_filter : string;
  opt_providers : list P
}.

Definition set_providers (pds : list P) (gb : GroupBase) : GroupBase :=
  {| Base_name := Base_name gb; filterRegs := filterRegs gb;
     providers := pds; failedTimes := failedTimes gb;
     failedTime := failedTime gb; failedTesting := failedTesting gb;
     proxies := proxies gb; versions := versions gb |}.

Definition set_failedTimes (n : Z) (gb : GroupBase) : GroupBase :=
  {| Base_name := Base_name gb; filterRegs := filterRegs gb;
     providers := providers gb; failedTimes := n;
     failedTime := failedTime gb; failedTesting := failedTesting gb;
     proxies := proxies gb; versions := versions gb |}.

Definition set_failedTime (t : gotime.Time) (gb : GroupBase) : GroupBase :=
  {| Base_name := Base_name gb; filterRegs := filterRegs gb;
     providers := providers gb; failedTimes := failedTimes gb;
     failedTime := t; failedTesting := failedTesting gb;
     proxies := proxies gb; versions := versions gb |}.

Definition set_failedTesting (b : bool) (gb : GroupBase) : GroupBase :=
  {| Base_name := Base_name gb; filterRegs := filterRegs gb;
     providers := providers gb; failedTimes := failedTimes gb;
     failedTime := failedTime gb; failedTesting := b;
     proxies := proxies gb; versions := versions gb |}.

Definition set_proxies (pxs : list (list C.Proxy)) (gb : GroupBase)
    : GroupBase :=
  {| Base_name := Base_name gb; filterRegs := filterRegs gb;
     providers := providers gb; failedTimes := failedTimes gb;
     failedTime := failedTime gb; failedTesting := failedTesting gb;
     proxies := pxs; versions := versions gb |}.

Definition set_versions (vs : list N) (gb : GroupBase) : GroupBase :=
  {| Base_name := Base_name gb; filterRegs := filterRegs gb;
     providers := providers gb; failedTimes := failedTimes gb;
     failedTime := failedTime gb; failedTesting := failedTesting gb;
     proxies := proxies gb; versions := vs |}.

(** [NewGroupBase]: the filter string is split on the backquote; the two
    caches get one zero slot per provider. *)
Definition NewGroupBase (opt : GroupBaseOption) : option GroupBase :=
  regs ← (if String.eqb (opt_filter opt) "" then Some []
          else mapM regexp2_MustCompile
                 (gostrings.Split (opt_filter opt) "`"%char));
  Some {| Base_name := opt_name opt; filterRegs := regs;
          providers := opt_providers opt; failedTimes := 0;
          failedTime := 0; failedTesting := false;
          proxies := replicate (length (opt_providers opt)) [];
          versions := replicate (length (opt_providers opt)) 0%N |}.

(** [Touch]: every provider is touched. *)
Definition GroupBase_Touch (gb : GroupBase) : GroupBase :=
  set_providers (types.Touch <$> providers gb) gb.

(** *** State and panic monad *)
Definition M (A : Type) : Type := GroupBase → option (A * GroupBase).

Definition ret {A} (a : A) : M A := λ gb, Some (a, gb).
Definition bind {A B} (m : M A) (k : A → M B) : M B :=
  λ gb, match m gb with
        | Some (a, gb') => k a gb'
        | None => None
        end.
Definition get : M GroupBase := λ gb, Some (gb, gb).

Notation "'do' x <- m ; k" := (bind m (λ x, k))
  (at level 10, x name, m at level 100, k at level 200).
Notation "m ;; k" := (bind m (λ _, k))
  (at level 100, k at level 200, right associativity).

(** [gb.providers[i]] *)
Definition provider_at (i : nat) : M P :=
  λ gb, pd ← providers gb !! i; Some (pd, gb).

(** [gb.providers[i].Touch()], returning the provider as it is then *)
Definition provider_Touch (i : nat) : M P :=
  λ gb, pd ← providers gb !! i;
        Some (types.Touch pd,
              set_providers (<[i := types.Touch pd]> (providers gb)) gb).

(** [gb.versions[i].Load()] *)
Definition versions_Load (i : nat) : M N :=
  λ gb, v ← versions gb !! i; Some (v, gb).

(** [gb.versions[i].Store(v)] *)
Definition versions_Store (i : nat) (v : N) : M unit :=
  λ gb, _ ← versions gb !! i;
        Some (tt, set_versions (<[i := v]> (versions gb)) gb).

(** [gb.versions[i].CompareAndSwap(old, new)] *)
Definition versions_CompareAndSwap (i : nat) (old new : N) : M bool :=
  λ gb, v ← versions gb !! i;
        if decide (v = old)
        then Some (true, set_versions (<[i := new]> (versions gb)) gb)
        else Some (false, gb).

(** [gb.proxies[i] = l] *)
Definition proxies_Store (i : nat) (l : list C.Proxy) : M unit :=
  λ gb, _ ← proxies gb !! i;
        Some (tt, set_proxies (<[i := l]> (proxies gb)) gb).

Fixpoint forRange (body : nat → M unit) (indices : list nat) : M unit :=
  match indices with
  | [] => ret tt
  | i :: rest => body i;; forRange body rest
  end.

Fixpoint foldRange {A} (body : A → nat → M A) (acc : A)
    (indices : list nat) : M A :=
  match indices with
  | [] => ret acc
  | i :: rest => do acc' <- body acc i; foldRange body acc' rest
  end.

(** Lines 80-114: the body of the loop over the providers. *)
Definition refreshSlot (touch : bool) (i : nat) : M unit :=
  do gb <- get;
  do pd <- (if touch then provider_Touch i else provider_at i);
  if decide (types.VehicleType_of pd = types.Compatible) then
    versions_Store i (types.Version pd);;
    proxies_Store i (types.Proxies pd)
  else
    do version <- versions_Load i;
    if decide (version ≠ types.Version pd) then
      do swapped <- versions_CompareAndSwap i version (types.Version pd);
      if swapped
      then proxies_Store i (filterProxies (filterRegs gb) (types.Proxies pd))
      else ret tt
    else ret tt.

(** Lines 68-73: the body of the loop of the branch without filters. *)
Definition collectStep (touch : bool) (acc : list C.Proxy) (i : nat)
    : M (list C.Proxy) :=
  do pd <- (if touch then provider_Touch i else provider_at i);
  ret (acc ++ types.Proxies pd).

Definition GetProxies (touch : bool) : M (list C.Proxy) :=
  do gb <- get;
  let n := length (providers gb) in
  if (length (filterRegs gb) =? 0)%nat then
    do all <- foldRange (collectStep touch) [] (seq 0 n);
    if (length all =? 0)%nat
    then ret (all ++ [tunnel_Proxies "COMPATIBLE"])
    else ret all
  else
    forRange (refreshSlot touch) (seq 0 n);;
    do gb' <- get;
    let all := foldl (λ acc p, acc ++ p) [] (proxies gb') in
    if (length all =? 0)%nat
    then ret (all ++ [tunnel_Proxies "COMPATIBLE"])
    else if (1 <? n)%nat && (1 <? length (filterRegs gb))%nat
    then ret (crossProviderPass (filterRegs gb) all)
    else ret all.

(** *** URLTest *)

(** What one probing goroutine does once it holds the lock. *)
Definition probeStep (ctx : context.Context) (url : string)
    (mp : gmap string Z) (proxy : C.Proxy) : gmap string Z :=
  match C.URLTest proxy ctx url with
  | inl delay => <[C.Name proxy := delay]> mp
  | inr _ => mp
  end.

(** Lines 171-177, for goroutines that took the lock in the order
    [order]: the map and the error. *)
Definition collectDelays (ctx : context.Context) (url : string)
    (order : list C.Proxy) : gmap string Z * option string :=
  let mp := foldl (probeStep ctx url) ∅ order in
  if (size mp =? 0)%nat
  then (mp, Some "get delay: all proxies timeout")
  else (mp, None).

(** [URLTest] when the goroutines take the lock in the order they were
    started. *)
Definition URLTest (ctx : context.Context) (url : string)
    : M (gmap string Z * option string) :=
  do all <- GetProxies false;
  ret (collectDelays ctx url all).

(** [URLTest] under any schedule of the probing goroutines. *)
Definition URLTest_returns (ctx : context.Context) (url : string)
    (gb : GroupBase) (res : gmap string Z * option string)
    (gb' : GroupBase) : Prop :=
  ∃ all order, GetProxies false gb = Some (all, gb') ∧
               order ≡ₚ all ∧
               res = collectDelays ctx url order.

(** *** Failure tracking and health check *)

(** What a run leaves behind for an observer: the stores to the
    single-flight flag and the health checks asked of the providers. *)
Inductive Event :=
  | EvStoreFailedTesting (b : bool)
  | EvProviderHealthCheck (i : nat).

#[global] Instance Event_eq_dec : EqDecision Event.
Proof. solve_decision. Defined.

Definition Act : Type := GroupBase → GroupBase * list Event.

Definition andThen (a b : Act) : Act :=
  λ gb, let r1 := a gb in let r2 := b r1.1 in (r2.1, r1.2 ++ r2.2).

Definition skip : Act := λ gb, (gb, []).

Definition failedTesting_Store (b : bool) : Act :=
  λ gb, (set_failedTesting b gb, [EvStoreFailedTesting b]).

Definition provider_HealthCheck (i : nat) : Act :=
  λ gb, (set_providers (alter types.HealthCheck i (providers gb)) gb,
         [EvProviderHealthCheck i]).

Definition forEach (body : nat → Act) (indices : list nat) : Act :=
  foldr (λ i rest, andThen (body i) rest) skip indices.

Definition maxFailedTimes (gb : GroupBase) : Z := 5.

Definition failedTimeoutInterval (gb : GroupBase) : gotime.Duration :=
  5 * gotime.Second.

Definition failedIntervalTime (gb : GroupBase) : Z :=
  5 * (gotime.Second / gotime.Millisecond).

(** Go's [int], 64 bits wide *)
Definition int_wrap (z : Z) : Z := (z + 2 ^ 63) `mod` 2 ^ 64 - 2 ^ 63.

Definition healthCheck : Act :=
  λ gb,
    if failedTesting gb then (gb, [])
    else
      andThen (failedTesting_Store true)
        (andThen (forEach provider_HealthCheck
                    (seq 0 (length (providers gb))))
           (andThen (failedTesting_Store false)
              (λ gb, (set_failedTimes 0 gb, [])))) gb.

(** Lines 190-210: the goroutine that counts one failure, run when the
    clock reads [now]. *)
Definition countFailure (now : gotime.Time) : Act :=
  λ gb,
    let gb := set_failedTimes (int_wrap (failedTimes gb + 1)) gb in
    if failedTimes gb =? 1 then (set_failedTime now gb, [])
    else if failedTimeoutInterval gb <? gotime.Since now (failedTime gb)
    then (set_failedTimes 0 gb, [])
    else if maxFailedTimes gb <=? failedTimes gb then healthCheck gb
    else (gb, []).

Inductive Goroutine := GoHealthCheck | GoCountFailure.

(** [err] is the text of the error, [err.Error()]. The method touches no
    field itself; it returns the goroutine it starts, if any. *)
Definition onDialFailed (adapterType : C.AdapterType) (err : string)
    (gb : GroupBase) : GroupBase * list Goroutine :=
  if bool_decide (adapterType = C.Direct) ||
     bool_decide (adapterType = C.Compatible) ||
     bool_decide (adapterType = C.Reject) ||
     bool_decide (adapterType = C.Pass)
  then (gb, [])
  else if gostrings.Contains err "connection refused"
  then (gb, [GoHealthCheck])
  else (gb, [GoCountFailure]).

Definition runGoroutine (now : gotime.Time) (g : Goroutine) : Act :=
  match g with
  | GoHealthCheck => healthCheck
  | GoCountFailure => countFailure now
  end.

Definition onDialSuccess (gb : GroupBase) : GroupBase :=
  if negb (failedTesting gb) then set_failedTimes 0 gb else gb.

(** A dial failure reported when the clock reads [now], the goroutine it
    starts run to its end before anything else happens. *)
Definition reportFailure (adapterType : C.AdapterType) (err : string)
    (now : gotime.Time) : Act :=
  λ gb, let r := onDialFailed adapterType err gb in
        foldr (λ g rest, andThen (runGoroutine now g) rest) skip r.2 r.1.

Definition reportFailures (adapterType : C.AdapterType) (err : string)
    (times : list gotime.Time) : Act :=
  foldr (λ now rest, andThen (reportFailure adapterType err now) rest)
        skip times.

(** The sweeps of a run: those that got past the single-flight test. *)
Definition sweeps (trace : list Event) : nat :=
  length (filter (λ e, e = EvStoreFailedTesting true) trace).

(** The health checks a run asked of the providers, in order. *)
Definition healthChecked (trace : list Event) : list nat :=
  omap (λ e, match e with
             | EvProviderHealthCheck i => Some i
             | _ => None
             end) trace.

End GroupBase.

Arguments GroupBase P : clear implicits.
Arguments GroupBaseOption P : clear implicits.

(** ** The inputs of the failure tracker *)

(** The kinds that count toward the health of a group: all but those
    [onDialFailed] returns on at once. *)
Definition routable (adapterType : C.AdapterType) : Prop :=
  adapterType ∉ [C.Direct; C.Compatible; C.Reject; C.Pass].

(** The error says that the connection was refused; [err] is its text. *)
Definition refused (err : string) : bool :=
  gostrings.Contains err "connection refused".

(** The counter is a value of Go's [int]. *)
Definition intRange (n : Z) : Prop := - 2 ^ 63 ≤ n < 2 ^ 63.

(** ** What the loops compute, in terms of lists *)
Section resolution.

Context {P : Type} `{!types.ProxyProvider P}.

Definition names (l : list C.Proxy) : list string := C.Name <$> l.

(** First-seen-wins de-duplication by name, [seen] being the names met
    so far. *)
Fixpoint firstSeenWins (seen : gset string) (l : list C.Proxy)
    : list C.Proxy :=
  match l with
  | [] => []
  | p :: l' =>
      if decide (C.Name p ∈ seen) then firstSeenWins seen l'
      else p :: firstSeenWins ({[C.Name p]} ∪ seen) l'
  end.

Definition matchesAny (filterRegs : list regexp2.Regexp) (name : string)
    : bool :=
  existsb (λ r, matched r name) filterRegs.

(** The backends matching each filter, filters in declaration order. *)
Definition matchingEach (filterRegs : list regexp2.Regexp)
    (l : list C.Proxy) : list C.Proxy :=
  filterRegs ≫= (λ r, filter (λ p, matched r (C.Name p) = true) l).

(** The backends matching no filter, in their order in [l]. *)
Definition unmatchedOf (filterRegs : list regexp2.Regexp)
    (l : list C.Proxy) : list C.Proxy :=
  filter (λ p, matchesAny filterRegs (C.Name p) = false) l.

(** The second pass in the words of the specification: the matches of
    each filter, de-duplicated first-seen-wins, then every backend that
    matches no filter. *)
Definition statedPass (filterRegs : list regexp2.Regexp)
    (l : list C.Proxy) : list C.Proxy :=
  firstSeenWins ∅ (matchingEach filterRegs l) ++ unmatchedOf filterRegs l.

(** [l'] is in the order of the filters: first a run of backends that
    match the first filter, in their order in [l], then, from the
    backends that do not match it, a run for the second filter, and so
    on. *)
Fixpoint groupedBy (filterRegs : list regexp2.Regexp) (l l' : list C.Proxy)
    : Prop :=
  match filterRegs with
  | [] => l' = []
  | r :: rest =>
      ∃ hits others,
        l' = hits ++ others ∧
        Forall (λ p, matched r (C.Name p) = true) hits ∧
        hits `sublist_of` l ∧
        Forall (λ p, matched r (C.Name p) = false) others ∧
        groupedBy rest l others
  end.

(** The group after the loop over the providers of lines 80-114. *)
Definition touched (touch : bool) (pds : list P) : list P :=
  if touch then types.Touch <$> pds else pds.

Definition slotAfter (filterRegs : list regexp2.Regexp) (pd : P)
    (version : N) (slot : list C.Proxy) : list C.Proxy :=
  if decide (types.VehicleType_of pd = types.Compatible)
  then types.Proxies pd
  else if decide (version ≠ types.Version pd)
  then filterProxies filterRegs (types.Proxies pd)
  else slot.

Definition slotsAfter (filterRegs : list regexp2.Regexp) (pds : list P)
    (vs : list N) (slots : list (list C.Proxy)) : list (list C.Proxy) :=
  zip_with (λ pd vs, slotAfter filterRegs pd vs.1 vs.2) pds (zip vs slots).

Definition refreshed (touch : bool) (gb : GroupBase P) : GroupBase P :=
  let pds := touched touch (providers gb) in
  set_providers pds
    (set_versions (types.Version <$> pds)
       (set_proxies (slotsAfter (filterRegs gb) pds (versions gb)
                       (proxies gb)) gb)).

(** The invariant of the data model: one cache slot and one version per
    provider. *)
Definition wellFormed (gb : GroupBase P) : Prop :=
  length (proxies gb) = length (providers gb) ∧
  length (versions gb) = length (providers gb).

(** [err == nil] for [delay, err := proxy.URLTest(ctx, url)]. *)
Definition answers (ctx : context.Context) (url : string) (p : C.Proxy)
    : bool :=
  match C.URLTest p ctx url with
  | inl _ => true
  | inr _ => false
  end.

(** The backends of [l] whose probe returns a delay. *)
Definition answering (ctx : context.Context) (url : string)
    (l : list C.Proxy) : list C.Proxy :=
  filter (λ p, answers ctx url p = true) l.

(** The cache holds filtered lists: a slot of a provider that is not of
    the passthrough kind holds only backends matching some filter. *)
Definition cacheFiltered (filterRegs : list regexp2.Regexp)
    (pds : list P) (slots : list (list C.Proxy)) : Prop :=
  ∀ i pd slot,
    pds !! i = Some pd → slots !! i = Some slot →
    types.VehicleType_of pd ≠ types.Compatible →
    Forall (λ p, matchesAny filterRegs (C.Name p) = true) slot.

(** The combined list of lines 67-73 and 116-119. *)
Definition combined (touch : bool) (gb : GroupBase P) : list C.Proxy :=
  match filterRegs gb with
  | [] => mjoin (types.Proxies <$> touched touch (providers gb))
  | _ => mjoin (proxies (refreshed touch gb))
  end.

(** The condition of line 125. *)
Definition secondPass (gb : GroupBase P) : bool :=
  (1 <? length (providers gb))%nat && (1 <? length (filterRegs gb))%nat.

(** The group has a single provider, not of the passthrough kind, and
    the call recomputes its slot. *)
Definition singleRecomputed (touch : bool) (gb : GroupBase P) : Prop :=
  filterRegs gb ≠ [] ∧
  ∃ pd v, touched touch (providers gb) = [pd] ∧ versions gb = [v] ∧
          types.VehicleType_of pd ≠ types.Compatible ∧
          v ≠ types.Version pd.

(** What [GetProxies] returns from the combined list [all]. *)
Definition resolved (fallback : C.Proxy) (gb : GroupBase P)
    (all : list C.Proxy) : list C.Proxy :=
  match all with
  | [] => [fallback]
  | _ => if secondPass gb
         then crossProviderPass (filterRegs gb) all else all
  end.

End resolution.

(** ** A provider with a fixed list, for concrete groups *)
Module static.

Record Provider := {
  backends : list C.Proxy;
  version : N;
  vehicle : types.VehicleType;
  touches : nat;
  healthChecks : nat
}.

#[global] Instance provider : types.ProxyProvider Provider := {|
  types.Touch pd :=
    {| backends := backends pd; version := version pd;
       vehicle := vehicle pd; touches := S (touches pd);
       healthChecks := healthChecks pd |};
  types.Proxies := backends;
  types.Version := version;
  types.VehicleType_of := vehicle;
  types.HealthCheck pd :=
    {| backends := backends pd; version := version pd;
       vehicle := vehicle pd; touches := touches pd;
       healthChecks := S (healthChecks pd) |}
|}.

Definition make (l : list C.Proxy) (v : N) (k : types.VehicleType)
    : Provider :=
  {| backends := l; version := v; vehicle := k;
     touches := 0; healthChecks := 0 |}.

(** A backend whose probe answers in [delay] milliseconds. *)
Definition alive (name : string) (delay : Z) : C.Proxy :=
  {| C.Name := name; C.URLTest _ _ := inl delay |}.

(** A backend whose probe runs into the deadline. *)
Definition dead (name : string) : C.Proxy :=
  {| C.Name := name; C.URLTest _ _ := inr "context deadline exceeded" |}.

(** A pattern that matches the names starting with [prefix]. *)
Definition startsWith (prefix : string) : regexp2.Regexp :=
  {| regexp2.FindStringMatch name :=
       if gostrings.HasPrefix name prefix then Some prefix else None |}.

Definition fallbackRegistry (key : string) : C.Proxy := alive key 0.

Definition group (regs : list regexp2.Regexp) (pds : list Provider)
    : GroupBase Provider :=
  {| Base_name := "group"; filterRegs := regs; providers := pds;
     failedTimes := 0; failedTime := 0; failedTesting := false;
     proxies := replicate (length pds) [];
     versions := replicate (length pds) 0%N |}.

(** The names [GetProxies] returns, for the registry above. *)
Definition resolvedNames (touch : bool) (gb : GroupBase Provider)
    : option (list string) :=
  (λ r, names r.1) <$> GetProxies fallbackRegistry touch gb.

(** Two providers that both list a backend named a; no filter. *)
Definition sharedName : GroupBase Provider :=
  group [] [make [alive "a" 10] 1 types.HTTP;
            make [alive "a" 20] 1 types.HTTP].

(** One filter, one passthrough provider. *)
Definition passthroughOnly : GroupBase Provider :=
  group [startsWith "a"] [make [alive "b" 10] 1 types.Compatible].

(** Two filters, two passthrough providers that both list x, which no
    filter matches. *)
Definition sharedUnmatched : GroupBase Provider :=
  group [startsWith "a"; startsWith "b"]
    [make [alive "x" 10] 1 types.Compatible;
     make [alive "x" 20] 1 types.Compatible].

(** Two filters, a subscription and a passthrough provider. *)
Definition mixed : GroupBase Provider :=
  group [startsWith "a"; startsWith "b"]
    [make [alive "b1" 10; alive "a1" 20; alive "c" 30] 1 types.HTTP;
     make [alive "b1" 40; alive "a2" 50; alive "c" 60; alive "c" 70] 1
       types.Compatible].

(** Two filters that overlap, one subscription. *)
Definition overlapping : GroupBase Provider :=
  group [startsWith "a"; startsWith "ab"]
    [make [alive "ab" 10; alive "a" 20; alive "c" 30] 1 types.HTTP].

(** Providers that list nothing. *)
Definition emptyProviders : GroupBase Provider :=
  group [startsWith "a"] [make [] 1 types.HTTP;
                          make [] 1 types.Compatible].

(** Three backends, the last of which runs into the deadline. *)
Definition twoOfThree : GroupBase Provider :=
  group [] [make [alive "a" 120; alive "b" 80; dead "c"] 1 types.HTTP].

(** Three backends that all run into the deadline. *)
Definition noneOfThree : GroupBase Provider :=
  group [] [make [dead "a"; dead "b"; dead "c"] 1 types.HTTP].

Definition background : context.Context := {| context.Deadline := None |}.

(** A group of two subscriptions, its counter at zero, no sweep in flight. *)
Definition healthy : GroupBase Provider :=
  group [] [make [alive "a" 10] 1 types.HTTP; make [alive "b" 20] 1 types.HTTP].

Definition timeout : string := "dial tcp 10.0.0.1:443: i/o timeout".

Definition connRefused : string :=
  "dial tcp 10.0.0.1:443: connect: connection refused".

(** Five failures, one second apart. *)
Definition dense : list gotime.Time :=
  [0; 1 * gotime.Second; 2 * gotime.Second; 3 * gotime.Second;
   4 * gotime.Second].

(** Five failures across ten seconds. *)
Definition sparse : list gotime.Time :=
  [0; 2500 * gotime.Millisecond; 5 * gotime.Second;
   7500 * gotime.Millisecond; 10 * gotime.Second].

(** Every pattern compiles, to the test for a prefix. *)
Definition compile (pattern : string) : option regexp2.Regexp :=
  Some (startsWith pattern).

(** The options of a group without filter and without providers. *)
Definition plain : GroupBaseOption Provider :=
  {| opt_name := "group"; opt_filter := ""; opt_providers := [] |}.

(** The options of a group with two filters over two subscriptions whose
    versions are still zero. *)
Definition unversioned : GroupBaseOption Provider :=
  {| opt_name := "group"; opt_filter := "a`b";
     opt_providers := [make [alive "a1" 10] 0 types.HTTP;
                       make [alive "b1" 20] 0 types.File] |}.

End static.

(** ** Sequential runs of a group *)
Section runs.

Context {P : Type} `{!types.ProxyProvider P}.
Variable tunnel_Proxies : string → C.Proxy.

(** What takes a group from one moment at which no method runs to the
    next: a call of one of its methods, the goroutine of a reported
    failure run to its end, or a provider changing on its own. *)
Inductive step : GroupBase P → GroupBase P → Prop :=
  | step_GetProxies touch gb r gb' :
      GetProxies tunnel_Proxies touch gb = Some (r, gb') → step gb gb'
  | step_URLTest ctx url gb res gb' :
      URLTest tunnel_Proxies ctx url gb = Some (res, gb') → step gb gb'
  | step_Touch gb :
      step gb (GroupBase_Touch gb)
  | step_onDialFailed adapterType err now gb :
      step gb (reportFailure adapterType err now gb).1
  | step_onDialSuccess gb :
      step gb (onDialSuccess gb)
  | step_provider i pd gb :
      step gb (set_providers (<[i := pd]> (providers gb)) gb).

(** What holds of a group at every moment at which no method runs. *)
Definition atRest (gb : GroupBase P) : Prop :=
  wellFormed gb ∧ failedTesting gb = false ∧ 0 ≤ failedTimes gb ≤ 4.

End runs.

(** * Properties *)

(** ** The selection loops *)
Section selection_facts.

Implicit Types (p : C.Proxy) (l : list C.Proxy) (S : gset string).
Implicit Types (regs : list regexp2.Regexp).

Lemma firstSeenWins_app S l1 l2 :
  firstSeenWins S (l1 ++ l2) =
  firstSeenWins S l1 ++ firstSeenWins (list_to_set (names l1) ∪ S) l2.
Proof.
  revert S. induction l1 as [|p l1 IH]; intros S; simpl.
  - f_equal. set_solver.
  - destruct (decide (C.Name p ∈ S)) as [Hin|Hin].
    + rewrite IH. do 2 f_equal. set_solver.
    + simpl. rewrite IH. do 3 f_equal. set_solver.
Qed.

Lemma elem_of_firstSeenWins S l p :
  p ∈ firstSeenWins S l → p ∈ l ∧ C.Name p ∉ S.
Proof.
  revert S. induction l as [|q l IH]; intros S; simpl.
  - by intros ?%elem_of_nil.
  - destruct (decide (C.Name q ∈ S)).
    + intros [??]%IH. split; [by right | done].
    + intros [->|[??]%IH]%elem_of_cons.
      * split; [by left | done].
      * split; [by right | set_solver].
Qed.

Lemma elem_of_names_firstSeenWins S l (n : string) :
  n ∈ names (firstSeenWins S l) ↔ n ∈ names l ∧ n ∉ S.
Proof.
  unfold names. revert S. induction l as [|q l IH]; intros S; simpl.
  - set_solver.
  - destruct (decide (C.Name q ∈ S)) as [Hin|Hin].
    + rewrite IH. set_solver.
    + rewrite fmap_cons, !elem_of_cons, IH.
      destruct (decide (n = C.Name q)); set_solver.
Qed.

Lemma NoDup_names_firstSeenWins S l : NoDup (names (firstSeenWins S l)).
Proof.
  revert S. induction l as [|q l IH]; intros S; simpl.
  - constructor.
  - destruct (decide (C.Name q ∈ S)); [apply IH|].
    unfold names. rewrite fmap_cons. apply NoDup_cons. split; [|apply IH].
    intros [_ Hn]%elem_of_names_firstSeenWins. set_solver.
Qed.

Lemma sublist_firstSeenWins S l : firstSeenWins S l `sublist_of` l.
Proof.
  revert S. induction l as [|q l IH]; intros S; simpl; [done|].
  destruct (decide (C.Name q ∈ S)).
  - by apply sublist_cons.
  - by apply sublist_skip.
Qed.

(** Names already seen can be traded against a filter. *)
Lemma firstSeenWins_filter (f : C.Proxy → bool) S S' l :
  (∀ p, p ∈ l → f p = true → (C.Name p ∈ S ↔ C.Name p ∈ S')) →
  (∀ p, p ∈ l → f p = false → C.Name p ∈ S) →
  firstSeenWins S l = firstSeenWins S' (filter (λ p, f p = true) l).
Proof.
  revert S S'. induction l as [|q l IH]; intros S S' Hkeep Hdrop; [done|].
  simpl. rewrite filter_cons.
  destruct (decide (f q = true)) as [Hf|Hf].
  - simpl. destruct (decide (C.Name q ∈ S)) as [Hin|Hin].
    + rewrite decide_True by (apply Hkeep; [by left|done|done]).
      apply IH; intros p Hp ?; [apply Hkeep|apply Hdrop]; by try right.
    + rewrite decide_False by (rewrite <- Hkeep; [done|by left|done]).
      f_equal. apply IH.
      * intros p Hp Hfp. specialize (Hkeep p (list_elem_of_further _ _ _ Hp) Hfp).
        set_solver.
      * intros p Hp Hfp. specialize (Hdrop p (list_elem_of_further _ _ _ Hp) Hfp).
        set_solver.
  - apply not_true_is_false in Hf.
    rewrite decide_True by (apply Hdrop; [by left|done]).
    apply IH; intros p Hp ?; [apply Hkeep|apply Hdrop]; by try right.
Qed.

Lemma foldl_appendStep l S (acc : list C.Proxy) :
  foldl appendStep (S, acc) l =
  (list_to_set (names l) ∪ S, acc ++ firstSeenWins S l).
Proof.
  revert S acc. induction l as [|p l IH]; intros S acc; simpl.
  - rewrite app_nil_r. f_equal. set_solver.
  - replace (appendStep (S, acc) p) with
      (if decide (C.Name p ∈ S) then (S, acc)
       else ({[C.Name p]} ∪ S, acc ++ [p])) by done.
    destruct (decide (C.Name p ∈ S)) as [Hin|Hin].
    + rewrite IH. f_equal. set_solver.
    + rewrite IH, <- app_assoc. simpl. f_equal. set_solver.
Qed.

Lemma foldl_selectStep r l (acc : gset string * list C.Proxy) :
  foldl (selectStep r) acc l =
  foldl appendStep acc (filter (λ p, matched r (C.Name p) = true) l).
Proof.
  revert acc. induction l as [|p l IH]; intros acc; [done|].
  simpl. rewrite filter_cons, IH. unfold selectStep, appendStep.
  destruct (matched r (C.Name p)) eqn:Hm.
  - by destruct (decide (true = true)).
  - by destruct (decide (false = true)).
Qed.

Lemma selectMatched_foldl regs l (acc : gset string * list C.Proxy) :
  selectMatched regs l acc = foldl appendStep acc (matchingEach regs l).
Proof.
  unfold selectMatched, matchingEach. revert acc.
  induction regs as [|r regs IH]; intros acc; [done|].
  simpl. rewrite IH, foldl_app, foldl_selectStep. done.
Qed.

(** The filtered list of a provider: the matches of each filter, filters
    in order, first seen wins. *)
Lemma filterProxies_eq regs l :
  filterProxies regs l = firstSeenWins ∅ (matchingEach regs l).
Proof.
  unfold filterProxies. by rewrite selectMatched_foldl, foldl_appendStep.
Qed.

Lemma crossProviderPass_firstSeenWins regs l :
  crossProviderPass regs l = firstSeenWins ∅ (matchingEach regs l ++ l).
Proof.
  unfold crossProviderPass, appendUnmatched.
  rewrite selectMatched_foldl, foldl_appendStep, foldl_appendStep.
  simpl. by rewrite firstSeenWins_app.
Qed.

Lemma elem_of_matchingEach regs l p :
  p ∈ matchingEach regs l ↔ p ∈ l ∧ matchesAny regs (C.Name p) = true.
Proof.
  unfold matchingEach, matchesAny. rewrite list_elem_of_bind.
  setoid_rewrite list_elem_of_filter. rewrite existsb_exists.
  setoid_rewrite <- list_elem_of_In. naive_solver.
Qed.

(** The second pass: the matched backends, then the unmatched ones, each
    part first seen wins. *)
Lemma crossProviderPass_eq regs l :
  crossProviderPass regs l =
  firstSeenWins ∅ (matchingEach regs l) ++
  firstSeenWins ∅ (unmatchedOf regs l).
Proof.
  rewrite crossProviderPass_firstSeenWins, firstSeenWins_app. f_equal.
  unfold unmatchedOf.
  rewrite (firstSeenWins_filter
             (λ p, negb (matchesAny regs (C.Name p))) _ ∅).
  - f_equal. apply list_filter_iff. intros p.
    by destruct (matchesAny regs (C.Name p)).
  - intros p Hp Hf. apply negb_true_iff in Hf. split; [|set_solver].
    rewrite elem_of_union, elem_of_list_to_set.
    intros [Hin|Hin]; [|set_solver].
    apply list_elem_of_fmap in Hin as (q & Hq & [_ Hm]%elem_of_matchingEach).
    congruence.
  - intros p Hp Hf. apply negb_false_iff in Hf.
    rewrite elem_of_union, elem_of_list_to_set. left.
    apply list_elem_of_fmap. exists p. split; [done|].
    by apply elem_of_matchingEach.
Qed.

Lemma NoDup_names_crossProviderPass regs l :
  NoDup (names (crossProviderPass regs l)).
Proof.
  rewrite crossProviderPass_firstSeenWins. apply NoDup_names_firstSeenWins.
Qed.

Lemma NoDup_names_filterProxies regs l : NoDup (names (filterProxies regs l)).
Proof. rewrite filterProxies_eq. apply NoDup_names_firstSeenWins. Qed.

(** The second pass loses no name and invents none. *)
Lemma elem_of_names_crossProviderPass regs l (n : string) :
  n ∈ names (crossProviderPass regs l) ↔ n ∈ names l.
Proof.
  rewrite crossProviderPass_firstSeenWins, elem_of_names_firstSeenWins.
  unfold names. rewrite fmap_app, elem_of_app. split; [|set_solver].
  intros [[Hn|Hn] _]; [|done].
  apply list_elem_of_fmap in Hn as (q & -> & [Hq _]%elem_of_matchingEach).
  by apply list_elem_of_fmap_2.
Qed.

Lemma elem_of_crossProviderPass regs l p :
  p ∈ crossProviderPass regs l → p ∈ l.
Proof.
  rewrite crossProviderPass_firstSeenWins.
  intros [[Hp|Hp]%elem_of_app _]%elem_of_firstSeenWins; [|done].
  by apply elem_of_matchingEach in Hp as [? _].
Qed.

Lemma Forall_matched_filterProxies regs l :
  Forall (λ p, matchesAny regs (C.Name p) = true) (filterProxies regs l).
Proof.
  rewrite filterProxies_eq. apply Forall_forall. intros p.
  intros [Hp _]%elem_of_firstSeenWins.
  by apply elem_of_matchingEach in Hp as [_ ?].
Qed.

End selection_facts.

(** ** The loop over the providers *)
Section refresh_facts.

Context {P : Type} `{!types.ProxyProvider P}.
Variable tunnel_Proxies : string → C.Proxy.

Implicit Types (gb : GroupBase P) (pd : P) (pds : list P).
Implicit Types (vs : list N) (slots : list (list C.Proxy)).

Lemma insert_middle {A} (l1 l2 : list A) (x y : A) :
  <[length l1 := y]> (l1 ++ x :: l2) = l1 ++ y :: l2.
Proof. by rewrite insert_app_r_alt, Nat.sub_diag. Qed.

Lemma lookup_middle {A} (l1 l2 : list A) (x : A) (n : nat) :
  n = length l1 → (l1 ++ x :: l2) !! n = Some x.
Proof. apply list_lookup_middle. Qed.

(** One turn of the loop, at the provider between [pds1] and [pds2]. *)
Lemma refreshSlot_middle touch nm regs ft ftm ftst
    pds1 pd pds2 vs1 v vs2 slots1 slot slots2 :
  length vs1 = length pds1 → length slots1 = length pds1 →
  refreshSlot touch (length pds1)
    (Build_GroupBase nm regs (pds1 ++ pd :: pds2) ft ftm ftst
       (slots1 ++ slot :: slots2) (vs1 ++ v :: vs2)) =
  Some (tt,
    Build_GroupBase nm regs
      (pds1 ++ (if touch then types.Touch pd else pd) :: pds2) ft ftm ftst
      (slots1 ++
         slotAfter regs (if touch then types.Touch pd else pd) v slot ::
         slots2)
      (vs1 ++ types.Version (if touch then types.Touch pd else pd) :: vs2)).
Proof.
  intros Hvs Hslots.
  set (pd' := if touch then types.Touch pd else pd).
  assert (∀ gb0,
    gb0 = Build_GroupBase nm regs (pds1 ++ pd :: pds2) ft ftm ftst
            (slots1 ++ slot :: slots2) (vs1 ++ v :: vs2) →
    (if touch then provider_Touch (length pds1)
     else provider_at (length pds1)) gb0 =
    Some (pd', Build_GroupBase nm regs (pds1 ++ pd' :: pds2) ft ftm ftst
                 (slots1 ++ slot :: slots2) (vs1 ++ v :: vs2))) as Hpd.
  { intros gb0 ->. subst pd'. destruct touch.
    - unfold provider_Touch, set_providers. cbn.
      rewrite lookup_middle by done. cbn. by rewrite insert_middle.
    - unfold provider_at. cbn. by rewrite lookup_middle. }
  unfold refreshSlot, bind, get. rewrite (Hpd _ eq_refl). clear Hpd.
  unfold slotAfter.
  destruct (decide (types.VehicleType_of pd' = types.Compatible)).
  - unfold versions_Store, proxies_Store, set_versions, set_proxies. cbn.
    rewrite lookup_middle by done. cbn.
    rewrite lookup_middle by done. cbn.
    rewrite <- Hvs, insert_middle, Hvs, <- Hslots, insert_middle. done.
  - unfold versions_Load. cbn. rewrite lookup_middle by done. cbn.
    destruct (decide (v ≠ types.Version pd')) as [Hne|Heq].
    + unfold versions_CompareAndSwap, proxies_Store, set_versions,
        set_proxies. cbn.
      rewrite lookup_middle by done. cbn.
      rewrite decide_True by done. cbn.
      rewrite lookup_middle by done. cbn.
      rewrite <- Hvs, insert_middle, Hvs, <- Hslots, insert_middle. done.
    + apply dec_stable in Heq. unfold ret. by rewrite <- Heq.
Qed.

Lemma forRange_refreshSlot_from touch nm regs ft ftm ftst pds2 :
  ∀ pds1 vs1 vs2 slots1 slots2,
  length vs1 = length pds1 → length slots1 = length pds1 →
  length vs2 = length pds2 → length slots2 = length pds2 →
  forRange (refreshSlot touch) (seq (length pds1) (length pds2))
    (Build_GroupBase nm regs (pds1 ++ pds2) ft ftm ftst
       (slots1 ++ slots2) (vs1 ++ vs2)) =
  Some (tt,
    Build_GroupBase nm regs (pds1 ++ touched touch pds2) ft ftm ftst
      (slots1 ++ slotsAfter regs (touched touch pds2) vs2 slots2)
      (vs1 ++ (types.Version <$> touched touch pds2))).
Proof.
  induction pds2 as [|pd pds2 IH];
    intros pds1 vs1 vs2 slots1 slots2 Hvs1 Hslots1 Hvs2 Hslots2.
  - destruct vs2; [|done]. destruct slots2; [|done].
    by destruct touch.
  - destruct vs2 as [|v vs2]; [done|].
    destruct slots2 as [|slot slots2]; [done|].
    simpl in Hvs2, Hslots2. simpl seq. simpl forRange. unfold bind at 1.
    rewrite refreshSlot_middle by done.
    set (pd' := if touch then types.Touch pd else pd).
    specialize (IH (pds1 ++ [pd']) (vs1 ++ [types.Version pd']) vs2
                  (slots1 ++ [slotAfter regs pd' v slot]) slots2).
    rewrite !length_app in IH. simpl in IH.
    rewrite !Nat.add_1_r, <- !app_assoc in IH. simpl in IH.
    rewrite IH by lia.
    assert (touched touch (pd :: pds2) = pd' :: touched touch pds2) as ->
      by (subst pd'; by destruct touch).
    done.
Qed.

Lemma touched_length touch pds : length (touched touch pds) = length pds.
Proof. destruct touch; [apply length_fmap | done]. Qed.

(** The loop of lines 80-114 runs to its end on a well-formed group and
    leaves the group [refreshed]. *)
Lemma forRange_refreshSlot touch gb :
  wellFormed gb →
  forRange (refreshSlot touch) (seq 0 (length (providers gb))) gb =
  Some (tt, refreshed touch gb).
Proof.
  intros [Hslots Hvs]. destruct gb as [nm regs pds ft ftm ftst slots vs].
  simpl in *.
  exact (forRange_refreshSlot_from touch nm regs ft ftm ftst pds
           [] [] vs [] slots eq_refl eq_refl Hvs Hslots).
Qed.

(** The loop of lines 68-73. *)
Lemma foldRange_collectStep_from touch nm regs ft ftm ftst slots vs pds2 :
  ∀ pds1 (acc : list C.Proxy),
  foldRange (collectStep touch) acc (seq (length pds1) (length pds2))
    (Build_GroupBase nm regs (pds1 ++ pds2) ft ftm ftst slots vs) =
  Some (acc ++ mjoin (types.Proxies <$> touched touch pds2),
        Build_GroupBase nm regs (pds1 ++ touched touch pds2) ft ftm ftst
          slots vs).
Proof.
  induction pds2 as [|pd pds2 IH]; intros pds1 acc.
  - destruct touch; simpl; unfold ret; by rewrite !app_nil_r.
  - simpl seq. simpl foldRange. unfold bind at 1.
    set (pd' := if touch then types.Touch pd else pd).
    assert (collectStep touch acc (length pds1)
              (Build_GroupBase nm regs (pds1 ++ pd :: pds2) ft ftm ftst
                 slots vs) =
            Some (acc ++ types.Proxies pd',
                  Build_GroupBase nm regs (pds1 ++ pd' :: pds2) ft ftm ftst
                    slots vs)) as ->.
    { unfold collectStep, bind, ret. subst pd'. destruct touch.
      - unfold provider_Touch, set_providers. cbn.
        rewrite lookup_middle by done. cbn. by rewrite insert_middle.
      - unfold provider_at. cbn. by rewrite lookup_middle. }
    specialize (IH (pds1 ++ [pd']) (acc ++ types.Proxies pd')).
    rewrite !length_app in IH. simpl in IH.
    rewrite !Nat.add_1_r, <- !app_assoc in IH. simpl in IH.
    rewrite IH.
    assert (touched touch (pd :: pds2) = pd' :: touched touch pds2) as ->
      by (subst pd'; by destruct touch).
    done.
Qed.

Lemma foldl_app_join {A} (ls : list (list A)) (acc : list A) :
  foldl (λ acc p, acc ++ p) acc ls = acc ++ mjoin ls.
Proof.
  revert acc. induction ls as [|l ls IH]; intros acc; simpl.
  - by rewrite app_nil_r.
  - by rewrite IH, app_assoc.
Qed.

(** [GetProxies] without filters: defined on every group. *)
Lemma GetProxies_no_filter touch gb :
  filterRegs gb = [] →
  GetProxies tunnel_Proxies touch gb =
  Some (match mjoin (types.Proxies <$> touched touch (providers gb)) with
        | [] => [tunnel_Proxies "COMPATIBLE"]
        | all => all
        end,
        set_providers (touched touch (providers gb)) gb).
Proof.
  intros Hregs. unfold GetProxies, bind at 1, get. rewrite Hregs. simpl.
  unfold bind.
  destruct gb as [nm regs pds ft ftm ftst slots vs]. simpl in *.
  pose proof (foldRange_collectStep_from touch nm regs ft ftm ftst slots vs
                pds [] []) as Hloop.
  simpl in Hloop. rewrite Hloop. unfold set_providers, ret. simpl.
  by destruct (mjoin (types.Proxies <$> touched touch pds)).
Qed.

(** [GetProxies] with filters, on a well-formed group. *)
Lemma GetProxies_filter touch gb :
  wellFormed gb → filterRegs gb ≠ [] →
  GetProxies tunnel_Proxies touch gb =
  Some (resolved (tunnel_Proxies "COMPATIBLE") gb
          (mjoin (proxies (refreshed touch gb))),
        refreshed touch gb).
Proof.
  intros Hwf Hregs. unfold GetProxies, bind at 1, get.
  destruct (filterRegs gb) as [|r regs] eqn:Hr; [done|].
  change (length (r :: regs) =? 0)%nat with false. cbv iota.
  unfold bind at 1. rewrite forRange_refreshSlot by done.
  unfold bind, get, ret. rewrite !foldl_app_join.
  repeat change ([] ++ ?l) with l.
  unfold resolved, secondPass. rewrite Hr.
  destruct (mjoin (proxies (refreshed touch gb))) as [|p all]; [done|].
  change (length (p :: all) =? 0)%nat with false. cbv iota.
  by destruct ((1 <? length (providers gb))%nat &&
               (1 <? length (r :: regs))%nat).
Qed.

End refresh_facts.

(** ** Resolve: [GetProxies] *)
Section GetProxies_facts.

Context {P : Type} `{!types.ProxyProvider P}.
Variable tunnel_Proxies : string → C.Proxy.

Implicit Types (gb : GroupBase P) (pd : P) (p : C.Proxy).

#[local] Abbreviation fallback := (tunnel_Proxies "COMPATIBLE").

Lemma refreshed_providers touch gb :
  providers (refreshed touch gb) = touched touch (providers gb).
Proof. done. Qed.

Lemma refreshed_filterRegs touch gb :
  filterRegs (refreshed touch gb) = filterRegs gb.
Proof. done. Qed.

Lemma refreshed_versions touch gb :
  versions (refreshed touch gb) =
  types.Version <$> touched touch (providers gb).
Proof. done. Qed.

Lemma refreshed_slot touch gb i slot' :
  proxies (refreshed touch gb) !! i = Some slot' ↔
  ∃ pd v slot,
    touched touch (providers gb) !! i = Some pd ∧
    versions gb !! i = Some v ∧ proxies gb !! i = Some slot ∧
    slot' = slotAfter (filterRegs gb) pd v slot.
Proof.
  unfold refreshed, slotsAfter. simpl. rewrite lookup_zip_with_Some.
  split.
  - intros (pd & [v slot] & -> & Hpd & Hz).
    apply lookup_zip_with_Some in Hz as (v' & slot'' & [= <- <-] & ? & ?).
    by exists pd, v, slot.
  - intros (pd & v & slot & Hpd & Hv & Hslot & ->).
    exists pd, (v, slot). repeat split; [done|].
    apply lookup_zip_with_Some. by exists v, slot.
Qed.

Lemma refreshed_wellFormed touch gb :
  wellFormed gb → wellFormed (refreshed touch gb).
Proof.
  intros [Hs Hv]. unfold wellFormed, refreshed, slotsAfter. simpl.
  rewrite length_zip_with, length_zip_with, length_fmap, touched_length.
  lia.
Qed.

Lemma refreshed_slot_total touch gb i pd :
  wellFormed gb → touched touch (providers gb) !! i = Some pd →
  ∃ v slot, versions gb !! i = Some v ∧ proxies gb !! i = Some slot ∧
    proxies (refreshed touch gb) !! i =
    Some (slotAfter (filterRegs gb) pd v slot).
Proof.
  intros [Hs Hv] Hpd.
  pose proof (lookup_lt_Some _ _ _ Hpd) as Hlt.
  rewrite touched_length in Hlt.
  destruct (lookup_lt_is_Some_2 (versions gb) i) as [v Hvi]; [lia|].
  destruct (lookup_lt_is_Some_2 (proxies gb) i) as [slot Hsi]; [lia|].
  exists v, slot. split_and!; [done|done|].
  apply refreshed_slot. by exists pd, v, slot.
Qed.

(** [GetProxies] returns on every well-formed group. *)
Lemma GetProxies_total touch gb :
  wellFormed gb →
  GetProxies tunnel_Proxies touch gb =
  Some (resolved fallback gb (combined touch gb),
        match filterRegs gb with
        | [] => set_providers (touched touch (providers gb)) gb
        | _ => refreshed touch gb
        end).
Proof.
  intros Hwf. unfold combined, resolved, secondPass.
  destruct (filterRegs gb) as [|r regs] eqn:Hr.
  - rewrite GetProxies_no_filter by done.
    rewrite andb_false_r. by destruct (mjoin _).
  - rewrite GetProxies_filter by (done || congruence).
    unfold resolved, secondPass. by rewrite Hr.
Qed.

Lemma GetProxies_wellFormed touch gb r gb' :
  wellFormed gb → GetProxies tunnel_Proxies touch gb = Some (r, gb') →
  wellFormed gb'.
Proof.
  intros Hwf. rewrite GetProxies_total by done. intros [= _ <-].
  destruct (filterRegs gb); [|by apply refreshed_wellFormed].
  destruct Hwf as [Hs Hv]. unfold wellFormed. simpl.
  by rewrite touched_length.
Qed.

End GetProxies_facts.

(** ** Resolve: the claims *)
Section GetProxies_claims.

Context {P : Type} `{!types.ProxyProvider P}.
Variable tunnel_Proxies : string → C.Proxy.

Implicit Types (gb : GroupBase P) (pd : P) (p : C.Proxy).

#[local] Abbreviation fallback := (tunnel_Proxies "COMPATIBLE").

Lemma secondPass_true gb :
  secondPass gb = true ↔
  (1 < length (providers gb))%nat ∧ (1 < length (filterRegs gb))%nat.
Proof.
  unfold secondPass. rewrite andb_true_iff, !Nat.ltb_lt. done.
Qed.

Lemma combined_filter touch gb :
  filterRegs gb ≠ [] → combined touch gb = mjoin (proxies (refreshed touch gb)).
Proof. unfold combined. by destruct (filterRegs gb). Qed.

Lemma singleRecomputed_combined touch gb :
  wellFormed gb → singleRecomputed touch gb →
  secondPass gb = false ∧
  ∃ pd, combined touch gb = filterProxies (filterRegs gb) (types.Proxies pd).
Proof.
  intros [Hs Hv] (Hregs & pd & v & Hpds & Hvs & Hkind & Hver).
  assert (length (providers gb) = 1%nat) as Hlen
    by (by rewrite <- (touched_length touch), Hpds).
  split; [unfold secondPass; by rewrite Hlen|].
  exists pd. rewrite combined_filter by done.
  unfold refreshed, slotsAfter. simpl. rewrite Hpds, Hvs.
  destruct (proxies gb) as [|slot [|??]]; simpl in Hs; try lia.
  simpl. unfold slotAfter.
  rewrite decide_False, decide_True by done. apply app_nil_r.
Qed.

(** C1, as amended: the result of [GetProxies] holds no name twice
    exactly when the second pass runs (more than one provider and more
    than one filter) or the combined list it is built from (the providers'
    lists one after the other without filters, the cache slots one after
    the other with filters) holds no name twice. In particular it holds no
    name twice when filters are configured and the list of the single
    provider, not of the passthrough kind, is recomputed by the call. *)
Theorem C1_no_name_twice touch gb :
  wellFormed gb →
  ∃ r gb', GetProxies tunnel_Proxies touch gb = Some (r, gb') ∧
    (NoDup (names r) ↔
     ((1 < length (providers gb))%nat ∧ (1 < length (filterRegs gb))%nat) ∨
     NoDup (names (combined touch gb))) ∧
    (singleRecomputed touch gb → NoDup (names r)).
Proof.
  intros Hwf. rewrite GetProxies_total by done. unfold resolved.
  eexists _, _. split; [done|]. split.
  - rewrite <- secondPass_true.
    destruct (combined touch gb) as [|p all].
    + split; [right; constructor|intros _; apply NoDup_singleton].
    + destruct (secondPass gb).
      * split; [by left|intros _; apply NoDup_names_crossProviderPass].
      * split; [by right|by intros [?|?]].
  - intros Hsingle.
    destruct (singleRecomputed_combined touch gb Hwf Hsingle)
      as (-> & pd & Hall).
    pose proof (NoDup_names_filterProxies (filterRegs gb)
                  (types.Proxies pd)) as Hnd.
    rewrite <- Hall in Hnd. destruct (combined touch gb); [|done].
    apply NoDup_singleton.
Qed.

Lemma elem_of_refreshed_slots touch gb p :
  p ∈ mjoin (proxies (refreshed touch gb)) →
  ∃ i pd v slot,
    touched touch (providers gb) !! i = Some pd ∧
    versions gb !! i = Some v ∧ proxies gb !! i = Some slot ∧
    p ∈ slotAfter (filterRegs gb) pd v slot.
Proof.
  intros (slot' & Hp & (i & Hi)%list_elem_of_lookup)%list_elem_of_join.
  apply refreshed_slot in Hi as (pd & v & slot & ? & ? & ? & ->).
  by exists i, pd, v, slot.
Qed.

Lemma refreshed_cacheFiltered touch gb :
  cacheFiltered (filterRegs gb) (touched touch (providers gb)) (proxies gb) →
  cacheFiltered (filterRegs gb) (providers (refreshed touch gb))
    (proxies (refreshed touch gb)).
Proof.
  intros Hcache i pd slot' Hpd Hslot Hkind.
  rewrite refreshed_providers in Hpd.
  apply refreshed_slot in Hslot as (pd' & v & slot & Hpd' & _ & Hs & ->).
  assert (pd' = pd) as -> by congruence.
  unfold slotAfter. rewrite decide_False by done.
  destruct (decide (v ≠ types.Version pd)).
  - apply Forall_matched_filterProxies.
  - by apply (Hcache i pd).
Qed.

(** C2, as amended: with filters configured and a cache that holds
    filtered lists, every backend [GetProxies] returns matches a filter,
    or is listed by a passthrough provider, or is the fallback given for
    an empty list; when the second pass runs, the result is a run of
    matching backends followed by a run of backends matching no filter,
    these in the order of the combined list. The cache holds filtered
    lists again afterwards. *)
Theorem C2_returned_backends_match touch gb :
  wellFormed gb → filterRegs gb ≠ [] →
  cacheFiltered (filterRegs gb) (touched touch (providers gb)) (proxies gb) →
  ∃ r gb', GetProxies tunnel_Proxies touch gb = Some (r, gb') ∧
    (∀ p, p ∈ r →
       matchesAny (filterRegs gb) (C.Name p) = true ∨
       (∃ pd, pd ∈ providers gb' ∧
              types.VehicleType_of pd = types.Compatible ∧
              p ∈ types.Proxies pd) ∨
       (r = [fallback] ∧ mjoin (proxies gb') = [])) ∧
    ((1 < length (providers gb))%nat → (1 < length (filterRegs gb))%nat →
     mjoin (proxies gb') ≠ [] →
     ∃ hits misses, r = hits ++ misses ∧
       Forall (λ p, matchesAny (filterRegs gb) (C.Name p) = true) hits ∧
       Forall (λ p, matchesAny (filterRegs gb) (C.Name p) = false) misses ∧
       misses `sublist_of` mjoin (proxies gb')) ∧
    cacheFiltered (filterRegs gb') (providers gb') (proxies gb').
Proof.
  intros Hwf Hregs Hcache. rewrite GetProxies_total by done.
  unfold resolved.
  rewrite combined_filter by done.
  assert (match filterRegs gb with
          | [] => set_providers (touched touch (providers gb)) gb
          | _ => refreshed touch gb
          end = refreshed touch gb) as -> by (by destruct (filterRegs gb)).
  set (all := mjoin (proxies (refreshed touch gb))).
  eexists _, _. split; [done|]. split_and!.
  - intros p Hp.
    assert (all ≠ [] → p ∈ all) as Hall.
    { intros Hne. destruct all as [|q all'] eqn:Hq; [done|].
      destruct (secondPass gb); [|done].
      by apply elem_of_crossProviderPass in Hp. }
    destruct (decide (all = [])) as [Hnil|Hne].
    { right. right. by rewrite Hnil in *. }
    apply Hall in Hne.
    apply elem_of_refreshed_slots in Hne as (i & pd & v & slot & Hpd & _ & Hs & Hin).
    unfold slotAfter in Hin.
    destruct (decide (types.VehicleType_of pd = types.Compatible)) as [Hk|Hk].
    { right. left. exists pd. split_and!; [|done..].
      rewrite refreshed_providers. by eapply list_elem_of_lookup_2. }
    left. destruct (decide (v ≠ types.Version pd)).
    + pose proof (Forall_matched_filterProxies (filterRegs gb)
                    (types.Proxies pd)) as Hf.
      by apply (proj1 (Forall_forall _ _) Hf).
    + by apply (proj1 (Forall_forall _ _) (Hcache i pd slot Hpd Hs Hk)).
  - intros Hp Hf Hne.
    assert (secondPass gb = true) as -> by (by apply secondPass_true).
    destruct all as [|q all'] eqn:Hq; [done|]. rewrite <- Hq.
    exists (firstSeenWins ∅ (matchingEach (filterRegs gb) all)),
           (firstSeenWins ∅ (unmatchedOf (filterRegs gb) all)).
    split_and!.
    + apply crossProviderPass_eq.
    + apply Forall_forall. intros p [Hin _]%elem_of_firstSeenWins.
      by apply elem_of_matchingEach in Hin as [_ ?].
    + apply Forall_forall. intros p [Hin _]%elem_of_firstSeenWins.
      by apply list_elem_of_filter in Hin as [? _].
    + etrans; [apply sublist_firstSeenWins|]. apply sublist_filter.
  - rewrite refreshed_filterRegs. by apply refreshed_cacheFiltered.
Qed.

(** C3, as amended: on a combined list that is not empty the second
    pass runs exactly when more than one provider and more than one
    filter are configured. It then returns the backends matching each
    filter, filters in declaration order, first seen wins by name,
    followed by the backends matching no filter, these too first seen
    wins by name and in the order of the combined list. Otherwise the
    combined list is returned as it is, and the fallback stands in for an
    empty one. *)
Theorem C3_second_pass touch gb :
  wellFormed gb →
  ∃ r gb', GetProxies tunnel_Proxies touch gb = Some (r, gb') ∧
    let all := combined touch gb in
    let regs := filterRegs gb in
    (all = [] → r = [fallback]) ∧
    (all ≠ [] →
     (1 < length (providers gb))%nat ∧ (1 < length regs)%nat →
     r = firstSeenWins ∅ (matchingEach regs all) ++
         firstSeenWins ∅ (unmatchedOf regs all) ∧
     firstSeenWins ∅ (unmatchedOf regs all) `sublist_of` all) ∧
    (all ≠ [] →
     ¬ ((1 < length (providers gb))%nat ∧ (1 < length regs)%nat) →
     r = all).
Proof.
  intros Hwf. rewrite GetProxies_total by done. unfold resolved.
  eexists _, _. split; [done|]. simpl. split_and!.
  - by intros ->.
  - intros Hne Hpass%secondPass_true. rewrite Hpass.
    destruct (combined touch gb) as [|q all'] eqn:Hq; [done|]. split.
    + apply crossProviderPass_eq.
    + etrans; [apply sublist_firstSeenWins|]. apply sublist_filter.
  - intros Hne Hpass. rewrite <- secondPass_true in Hpass.
    apply not_true_is_false in Hpass. rewrite Hpass.
    by destruct (combined touch gb).
Qed.

Lemma filterProxies_nil regs : filterProxies regs [] = [].
Proof.
  rewrite filterProxies_eq.
  assert (matchingEach regs [] = []) as ->; [|done].
  unfold matchingEach. induction regs as [|r regs IH]; [done|].
  by rewrite bind_cons, IH.
Qed.

Lemma slotAfter_nil regs pd v (slot : list C.Proxy) :
  types.Proxies pd = [] →
  (types.VehicleType_of pd ≠ types.Compatible → v = types.Version pd →
   slot = []) →
  slotAfter regs pd v slot = [].
Proof.
  intros Hnil Hslot. unfold slotAfter. rewrite Hnil.
  destruct (decide _); [done|].
  destruct (decide (v ≠ types.Version pd)) as [|Heq];
    [apply filterProxies_nil|].
  apply dec_stable in Heq. auto.
Qed.

(** C8: without providers, or when no provider contributes a backend
    (without filters: every provider returns an empty list; with filters:
    every provider's filtered list is empty), [GetProxies] returns the
    fallback backend of the registry and nothing else. *)
Theorem C8_empty_set_fallback touch gb :
  wellFormed gb →
  providers gb = [] ∨
  (filterRegs gb = [] ∧
   Forall (λ pd, types.Proxies pd = []) (touched touch (providers gb))) ∨
  (filterRegs gb ≠ [] ∧
   ∀ i pd v slot,
     touched touch (providers gb) !! i = Some pd →
     versions gb !! i = Some v → proxies gb !! i = Some slot →
     slotAfter (filterRegs gb) pd v slot = []) ∨
  (filterRegs gb ≠ [] ∧
   Forall (λ pd, types.Proxies pd = []) (touched touch (providers gb)) ∧
   ∀ i pd v slot,
     touched touch (providers gb) !! i = Some pd →
     versions gb !! i = Some v → proxies gb !! i = Some slot →
     types.VehicleType_of pd ≠ types.Compatible → v = types.Version pd →
     slot = []) →
  ∃ gb', GetProxies tunnel_Proxies touch gb = Some ([fallback], gb').
Proof.
  intros Hwf Hcase. rewrite GetProxies_total by done. unfold resolved.
  eexists. assert (combined touch gb = []) as ->; [|done].
  assert (filterRegs gb ≠ [] →
          (∀ i pd v slot,
             touched touch (providers gb) !! i = Some pd →
             versions gb !! i = Some v → proxies gb !! i = Some slot →
             slotAfter (filterRegs gb) pd v slot = []) →
          combined touch gb = []) as Hslots.
  { intros Hregs Hempty.
    rewrite combined_filter by done. apply join_nil, Forall_lookup.
    intros i slot' (pd & v & slot & ? & ? & ? & ->)%refreshed_slot.
    by eapply Hempty. }
  destruct Hcase
    as [Hnone|[[Hregs Hempty]|[[Hregs Hempty]|(Hregs & Hempty & Hcache)]]].
  - unfold combined, refreshed. rewrite Hnone.
    destruct (filterRegs gb); by destruct touch.
  - unfold combined. rewrite Hregs. apply join_nil, Forall_fmap.
    by eapply Forall_impl.
  - by apply Hslots.
  - apply Hslots; [done|]. intros i pd v slot Hpd Hv Hslot.
    apply slotAfter_nil; [|by eauto].
    by eapply (proj1 (Forall_lookup _ _) Hempty).
Qed.

Lemma elem_of_names_resolved gb (all : list C.Proxy) (n : string) :
  n ∈ names all →
  n ∈ names (resolved fallback gb all).
Proof.
  intros Hn. unfold resolved. destruct all as [|q all'] eqn:Hq.
  - by apply elem_of_nil in Hn.
  - destruct (secondPass gb); [|done].
    by apply elem_of_names_crossProviderPass.
Qed.

(** C10: with filters configured, a call of [GetProxies] stores the
    current list of a passthrough provider in its cache slot as it is,
    and its version with it; every name of that list is in the result,
    whether a filter matches it or not. *)
Theorem C10_passthrough_unfiltered touch gb i pd :
  wellFormed gb → filterRegs gb ≠ [] →
  touched touch (providers gb) !! i = Some pd →
  types.VehicleType_of pd = types.Compatible →
  ∃ r gb', GetProxies tunnel_Proxies touch gb = Some (r, gb') ∧
    proxies gb' !! i = Some (types.Proxies pd) ∧
    versions gb' !! i = Some (types.Version pd) ∧
    ∀ p, p ∈ types.Proxies pd → C.Name p ∈ names r.
Proof.
  intros Hwf Hregs Hpd Hkind. rewrite GetProxies_total by done.
  assert (match filterRegs gb with
          | [] => set_providers (touched touch (providers gb)) gb
          | _ => refreshed touch gb
          end = refreshed touch gb) as -> by (by destruct (filterRegs gb)).
  destruct (refreshed_slot_total touch gb i pd Hwf Hpd)
    as (v & slot & _ & _ & Hslot).
  unfold slotAfter in Hslot. rewrite decide_True in Hslot by done.
  eexists _, _. split; [done|]. split_and!.
  - done.
  - by rewrite refreshed_versions, list_lookup_fmap, Hpd.
  - intros p Hp. apply elem_of_names_resolved.
    rewrite combined_filter by done.
    apply list_elem_of_fmap_2, list_elem_of_join.
    exists (types.Proxies pd). split; [done|].
    by eapply list_elem_of_lookup_2.
Qed.

End GetProxies_claims.

(** ** Resolve on concrete groups *)

Lemma group_wellFormed regs pds : wellFormed (static.group regs pds).
Proof. split; simpl; apply length_replicate. Qed.

(** C1 as stated fails: two providers that share a name, no filter. *)
Lemma C1_counterexample :
  wellFormed static.sharedName ∧
  static.resolvedNames false static.sharedName = Some ["a"; "a"] ∧
  ¬ NoDup ["a"; "a"].
Proof.
  split_and!.
  - apply group_wellFormed.
  - by vm_compute.
  - intros [Hin _]%NoDup_cons. apply Hin. by left.
Qed.

Lemma C1_no_name_twice_witness :
  (∃ r gb', GetProxies static.fallbackRegistry true static.mixed =
            Some (r, gb') ∧ NoDup (names r)) ∧
  (∃ r gb', GetProxies static.fallbackRegistry false static.overlapping =
            Some (r, gb') ∧ NoDup (names r)).
Proof.
  split.
  - destruct (C1_no_name_twice static.fallbackRegistry true static.mixed
                (group_wellFormed _ _)) as (r & gb' & Hget & Hiff & _).
    exists r, gb'. split; [done|]. apply Hiff. left. simpl. lia.
  - destruct (C1_no_name_twice static.fallbackRegistry false
                static.overlapping (group_wellFormed _ _))
      as (r & gb' & Hget & _ & Hsingle).
    exists r, gb'. split; [done|]. apply Hsingle. split; [done|].
    exists (static.make [static.alive "ab" 10; static.alive "a" 20;
                         static.alive "c" 30] 1 types.HTTP), 0%N.
    by split_and!.
Defined.

(** C2 as stated fails: a passthrough provider is not filtered. *)
Lemma C2_counterexample :
  wellFormed static.passthroughOnly ∧
  filterRegs static.passthroughOnly = [static.startsWith "a"] ∧
  static.resolvedNames false static.passthroughOnly = Some ["b"] ∧
  matchesAny (filterRegs static.passthroughOnly) "b" = false.
Proof.
  split_and!; [apply group_wellFormed|done|by vm_compute|by vm_compute].
Qed.

Lemma group_cacheFiltered regs (pds pds' : list static.Provider) :
  cacheFiltered regs pds' (proxies (static.group regs pds)).
Proof.
  intros i pd slot _ Hslot _. simpl in Hslot.
  apply lookup_replicate in Hslot as [-> _]. constructor.
Qed.

Lemma C2_returned_backends_match_witness :
  ∃ r gb', GetProxies static.fallbackRegistry true static.mixed =
           Some (r, gb') ∧
    (∀ p, p ∈ r →
       matchesAny (filterRegs static.mixed) (C.Name p) = true ∨
       (∃ pd, pd ∈ providers gb' ∧
              types.VehicleType_of pd = types.Compatible ∧
              p ∈ types.Proxies pd) ∨
       (r = [static.fallbackRegistry "COMPATIBLE"] ∧
        mjoin (proxies gb') = [])) ∧
    ((1 < length (providers static.mixed))%nat →
     (1 < length (filterRegs static.mixed))%nat →
     mjoin (proxies gb') ≠ [] →
     ∃ hits misses, r = hits ++ misses ∧
       Forall (λ p, matchesAny (filterRegs static.mixed) (C.Name p) = true)
         hits ∧
       Forall (λ p, matchesAny (filterRegs static.mixed) (C.Name p) = false)
         misses ∧
       misses `sublist_of` mjoin (proxies gb')) ∧
    cacheFiltered (filterRegs gb') (providers gb') (proxies gb').
Proof.
  apply C2_returned_backends_match.
  - apply group_wellFormed.
  - done.
  - apply group_cacheFiltered.
Defined.

(** C3 as stated fails: a name that no filter matches, listed by two
    providers, is returned once, not once per backend. *)
Lemma C3_counterexample :
  wellFormed static.sharedUnmatched ∧
  (1 < length (providers static.sharedUnmatched))%nat ∧
  (1 < length (filterRegs static.sharedUnmatched))%nat ∧
  names (combined false static.sharedUnmatched) = ["x"; "x"] ∧
  static.resolvedNames false static.sharedUnmatched = Some ["x"] ∧
  names (statedPass (filterRegs static.sharedUnmatched)
           (combined false static.sharedUnmatched)) = ["x"; "x"].
Proof.
  split_and!; [apply group_wellFormed|simpl; lia|simpl; lia|by vm_compute..].
Qed.

Lemma C3_second_pass_witness :
  ∃ r gb', GetProxies static.fallbackRegistry true static.mixed =
           Some (r, gb') ∧
    let all := combined true static.mixed in
    let regs := filterRegs static.mixed in
    (all = [] → r = [static.fallbackRegistry "COMPATIBLE"]) ∧
    (all ≠ [] →
     (1 < length (providers static.mixed))%nat ∧ (1 < length regs)%nat →
     r = firstSeenWins ∅ (matchingEach regs all) ++
         firstSeenWins ∅ (unmatchedOf regs all) ∧
     firstSeenWins ∅ (unmatchedOf regs all) `sublist_of` all) ∧
    (all ≠ [] →
     ¬ ((1 < length (providers static.mixed))%nat ∧ (1 < length regs)%nat) →
     r = all).
Proof. apply C3_second_pass, group_wellFormed. Defined.

Example mixed_resolved :
  static.resolvedNames true static.mixed = Some ["a1"; "a2"; "b1"; "c"].
Proof. by vm_compute. Qed.

Lemma C8_empty_set_fallback_witness :
  (∃ gb', GetProxies static.fallbackRegistry true (static.group [] []) =
          Some ([static.fallbackRegistry "COMPATIBLE"], gb')) ∧
  (∃ gb', GetProxies static.fallbackRegistry true
            (static.group [] [static.make [] 1 types.HTTP]) =
          Some ([static.fallbackRegistry "COMPATIBLE"], gb')) ∧
  (∃ gb', GetProxies static.fallbackRegistry true static.emptyProviders =
          Some ([static.fallbackRegistry "COMPATIBLE"], gb')) ∧
  (∃ gb', GetProxies static.fallbackRegistry false static.emptyProviders =
          Some ([static.fallbackRegistry "COMPATIBLE"], gb')).
Proof.
  split_and!; apply C8_empty_set_fallback; try apply group_wellFormed.
  - by left.
  - right. left. split; [done|]. by repeat constructor.
  - right. right. left. split; [done|].
    intros [|[|i]] pd v slot Hpd Hv Hslot; [| |done];
      simpl in Hpd, Hv, Hslot; simplify_eq; done.
  - right. right. right. split_and!; [done|by repeat constructor|].
    intros [|[|i]] pd v slot Hpd Hv Hslot; [| |done];
      simpl in Hpd, Hv, Hslot; simplify_eq; done.
Defined.

Lemma C10_passthrough_unfiltered_witness :
  ∃ r gb', GetProxies static.fallbackRegistry false static.passthroughOnly =
           Some (r, gb') ∧
    proxies gb' !! 0%nat = Some [static.alive "b" 10] ∧
    versions gb' !! 0%nat = Some 1%N ∧
    ∀ p, p ∈ [static.alive "b" 10] → C.Name p ∈ names r.
Proof.
  refine (C10_passthrough_unfiltered static.fallbackRegistry false
            static.passthroughOnly 0
            (static.make [static.alive "b" 10] 1 types.Compatible)
            _ _ _ _);
    [apply group_wellFormed|done..].
Defined.

(** ** ProbeAll: [URLTest] *)
Section URLTest_facts.

Context {P : Type} `{!types.ProxyProvider P}.
Variable tunnel_Proxies : string → C.Proxy.
Variables (ctx : context.Context) (url : string).

Implicit Types (gb : GroupBase P) (p : C.Proxy) (mp : gmap string Z).
Implicit Types (order all : list C.Proxy).

Lemma answers_inl p : answers ctx url p = true ↔ ∃ delay, C.URLTest p ctx url = inl delay.
Proof.
  unfold answers. destruct (C.URLTest p ctx url); naive_solver.
Qed.

Lemma probeStep_dom mp p :
  dom (probeStep ctx url mp p) =
  (if answers ctx url p then {[C.Name p]} else ∅) ∪ dom mp.
Proof.
  unfold probeStep, answers. destruct (C.URLTest p ctx url).
  - by rewrite dom_insert_L.
  - set_solver.
Qed.

(** The keys of the map: the names of the backends that answered. *)
Lemma foldl_probeStep_dom order mp :
  dom (foldl (probeStep ctx url) mp order) =
  list_to_set (names (answering ctx url order)) ∪ dom mp.
Proof.
  revert mp. induction order as [|p order IH]; intros mp; simpl.
  - set_solver.
  - rewrite IH, probeStep_dom. unfold answering. rewrite filter_cons.
    destruct (answers ctx url p); simpl; set_solver.
Qed.

(** Every entry is the delay of a backend of that name. *)
Lemma foldl_probeStep_lookup order mp (name : string) (delay : Z) :
  foldl (probeStep ctx url) mp order !! name = Some delay →
  mp !! name = Some delay ∨
  ∃ p, p ∈ order ∧ C.Name p = name ∧ C.URLTest p ctx url = inl delay.
Proof.
  revert mp. induction order as [|p order IH]; intros mp; simpl; [by left|].
  intros [Hmp|(q & ? & ? & ?)]%IH.
  - unfold probeStep in Hmp.
    destruct (C.URLTest p ctx url) as [d|e] eqn:Hprobe; [|by left].
    destruct (decide (C.Name p = name)) as [Hn|Hn].
    + rewrite Hn, lookup_insert_eq in Hmp. injection Hmp as ->.
      right. exists p. split_and!; [by left|done..].
    + rewrite lookup_insert_ne in Hmp by done. by left.
  - right. exists q. split_and!; [by right|done..].
Qed.

Lemma answering_Permutation order all :
  order ≡ₚ all → answering ctx url order ≡ₚ answering ctx url all.
Proof. intros Hp. unfold answering. by rewrite Hp. Qed.


End URLTest_facts.


(** Two of three backends answer: a map of two entries and no error. *)
Example URLTest_two_of_three :
  fst <$> URLTest static.fallbackRegistry static.background "http://probe"
            static.twoOfThree =
  Some ({["a" := 120; "b" := 80]}, None).
Proof. by vm_compute. Qed.

(** No backend answers: the error. *)
Example URLTest_none_of_three :
  fst <$> URLTest static.fallbackRegistry static.background "http://probe"
            static.noneOfThree =
  Some (∅, Some "get delay: all proxies timeout").
Proof. by vm_compute. Qed.

(** ** Health check and failure tracking *)
Section failure_facts.

Context {P : Type} `{!types.ProxyProvider P}.

Implicit Types (gb : GroupBase P) (now : gotime.Time).

Lemma alter_middle {A} (f : A → A) (l1 l2 : list A) (x : A) :
  alter f (length l1) (l1 ++ x :: l2) = l1 ++ f x :: l2.
Proof. by rewrite alter_app_r_alt, Nat.sub_diag. Qed.

Lemma forEach_provider_HealthCheck_from gb (pds2 : list P) :
  ∀ pds1,
  forEach provider_HealthCheck (seq (length pds1) (length pds2))
    (set_providers (pds1 ++ pds2) gb) =
  (set_providers (pds1 ++ (types.HealthCheck <$> pds2)) gb,
   EvProviderHealthCheck <$> seq (length pds1) (length pds2)).
Proof.
  induction pds2 as [|pd pds2 IH]; intros pds1; [done|].
  simpl seq. simpl forEach. unfold andThen.
  change (provider_HealthCheck (length pds1)
            (set_providers (pds1 ++ pd :: pds2) gb))
    with (set_providers
            (alter types.HealthCheck (length pds1) (pds1 ++ pd :: pds2)) gb,
          [EvProviderHealthCheck (length pds1)]).
  cbn [fst snd]. rewrite alter_middle.
  specialize (IH (pds1 ++ [types.HealthCheck pd])).
  rewrite length_app in IH. simpl in IH.
  rewrite Nat.add_1_r, <- !app_assoc in IH. simpl in IH.
  by rewrite IH.
Qed.

(** The closed form of [healthCheck]: nothing when a sweep is in flight;
    else the flag is set, every provider is asked for its health check
    once, the flag is cleared and the counter reset. *)
Lemma healthCheck_eq gb :
  healthCheck gb =
  if failedTesting gb then (gb, [])
  else (set_failedTimes 0
          (set_failedTesting false
             (set_providers (types.HealthCheck <$> providers gb) gb)),
        EvStoreFailedTesting true ::
        (EvProviderHealthCheck <$> seq 0 (length (providers gb))) ++
        [EvStoreFailedTesting false]).
Proof.
  unfold healthCheck. destruct (failedTesting gb) eqn:Hflag; [done|].
  unfold andThen at 1. cbn [fst snd failedTesting_Store].
  unfold andThen at 1.
  pose proof (forEach_provider_HealthCheck_from
                (set_failedTesting true gb) (providers gb) []) as Hloop.
  simpl in Hloop.
  change (set_providers (providers gb) (set_failedTesting true gb))
    with (set_failedTesting true gb) in Hloop.
  rewrite Hloop. cbn [fst snd]. unfold andThen, failedTesting_Store.
  cbn [fst snd]. rewrite ?Hloop, app_nil_r. done.
Qed.

Lemma sweeps_app (t1 t2 : list Event) :
  sweeps (t1 ++ t2) = (sweeps t1 + sweeps t2)%nat.
Proof. unfold sweeps. by rewrite filter_app, length_app. Qed.

Lemma sweeps_provider_events (l : list nat) :
  sweeps (EvProviderHealthCheck <$> l) = 0%nat.
Proof.
  unfold sweeps. induction l as [|i l IH]; [done|].
  rewrite fmap_cons, filter_cons_False by done. apply IH.
Qed.

Lemma healthChecked_provider_events (l : list nat) :
  healthChecked (EvProviderHealthCheck <$> l) = l.
Proof.
  unfold healthChecked. induction l as [|i l IH]; [done|].
  cbn. f_equal. exact IH.
Qed.

(** C7: entered while a sweep is in flight, [healthCheck] returns at once:
    no provider is asked anything and the group is as it was. Otherwise
    it sets the flag, asks every provider for its health check, once each,
    and only after the last of them clears the flag; it leaves the counter
    at zero. *)
Theorem C7_single_flight gb :
  healthCheck gb =
  (if failedTesting gb then (gb, [])
   else (set_failedTimes 0
           (set_failedTesting false
              (set_providers (types.HealthCheck <$> providers gb) gb)),
         EvStoreFailedTesting true ::
         (EvProviderHealthCheck <$> seq 0 (length (providers gb))) ++
         [EvStoreFailedTesting false])) ∧
  healthChecked (healthCheck gb).2 =
    (if failedTesting gb then [] else seq 0 (length (providers gb))) ∧
  sweeps (healthCheck gb).2 = (if failedTesting gb then 0 else 1)%nat ∧
  failedTimes (healthCheck gb).1 =
    (if failedTesting gb then failedTimes gb else 0) ∧
  failedTesting (healthCheck gb).1 = failedTesting gb.
Proof.
  rewrite healthCheck_eq. split; [done|].
  destruct (failedTesting gb) eqn:Hflag; [done|]. cbn [fst snd].
  split_and!; try done.
  - unfold healthChecked. simpl. rewrite omap_app. simpl.
    rewrite app_nil_r. apply healthChecked_provider_events.
  - change (EvStoreFailedTesting true :: ?l) with
      ([EvStoreFailedTesting true] ++ l).
    rewrite !sweeps_app, sweeps_provider_events. done.
Qed.

(** C9: [onDialSuccess] puts the counter back to zero when no sweep is in
    flight and leaves it alone when one is; it touches nothing else. *)
Theorem C9_success_resets_counter gb :
  failedTimes (onDialSuccess gb) =
    (if failedTesting gb then failedTimes gb else 0) ∧
  onDialSuccess gb = set_failedTimes (failedTimes (onDialSuccess gb)) gb.
Proof.
  unfold onDialSuccess. destruct (failedTesting gb); simpl; [|done].
  split; [done|]. by destruct gb.
Qed.

(** *** Dial failures *)

Lemma routable_test adapterType :
  routable adapterType →
  bool_decide (adapterType = C.Direct) ||
  bool_decide (adapterType = C.Compatible) ||
  bool_decide (adapterType = C.Reject) ||
  bool_decide (adapterType = C.Pass) = false.
Proof.
  unfold routable. intros Hk.
  destruct adapterType; try done; exfalso; apply Hk; set_solver.
Qed.

Lemma onDialFailed_refused adapterType err gb :
  routable adapterType → refused err = true →
  onDialFailed adapterType err gb = (gb, [GoHealthCheck]).
Proof.
  intros Hk%routable_test Herr. unfold onDialFailed, refused in *.
  by rewrite Hk, Herr.
Qed.

Lemma onDialFailed_counted adapterType err gb :
  routable adapterType → refused err = false →
  onDialFailed adapterType err gb = (gb, [GoCountFailure]).
Proof.
  intros Hk%routable_test Herr. unfold onDialFailed, refused in *.
  by rewrite Hk, Herr.
Qed.

Lemma reportFailure_counted adapterType err now gb :
  routable adapterType → refused err = false →
  reportFailure adapterType err now gb = countFailure now gb.
Proof.
  intros Hk Herr. unfold reportFailure.
  rewrite onDialFailed_counted by done. simpl. unfold andThen, skip. simpl.
  rewrite app_nil_r. by destruct (countFailure now gb).
Qed.

Lemma reportFailures_cons adapterType err now times gb :
  routable adapterType → refused err = false →
  reportFailures adapterType err (now :: times) gb =
  ((reportFailures adapterType err times (countFailure now gb).1).1,
   (countFailure now gb).2 ++
   (reportFailures adapterType err times (countFailure now gb).1).2).
Proof.
  intros Hk Herr. unfold reportFailures. simpl. unfold andThen at 1.
  by rewrite reportFailure_counted.
Qed.

Lemma reportFailures_app adapterType err times1 times2 gb :
  reportFailures adapterType err (times1 ++ times2) gb =
  ((reportFailures adapterType err times2
      (reportFailures adapterType err times1 gb).1).1,
   (reportFailures adapterType err times1 gb).2 ++
   (reportFailures adapterType err times2
      (reportFailures adapterType err times1 gb).1).2).
Proof.
  revert gb. induction times1 as [|now times1 IH]; intros gb.
  - simpl. by destruct (reportFailures adapterType err times2 gb).
  - unfold reportFailures in *. simpl. unfold andThen at 1 3.
    rewrite IH. simpl. by rewrite app_assoc.
Qed.

Lemma int_wrap_small (z : Z) : intRange z → int_wrap z = z.
Proof.
  unfold intRange, int_wrap. intros Hz. rewrite Z.mod_small; lia.
Qed.

Lemma int_wrap_succ_1 (n : Z) : intRange n → int_wrap (n + 1) = 1 → n = 0.
Proof.
  unfold intRange, int_wrap. intros Hn Hw.
  destruct (decide (n = 2 ^ 63 - 1)) as [->|Hmax].
  - by vm_compute in Hw.
  - rewrite Z.mod_small in Hw; lia.
Qed.

(** Beyond the window or not: the saturation of [Sub] plays no part. *)
Lemma Since_window now (t : gotime.Time) :
  (5 * gotime.Second <? gotime.Since now t) =
  (5 * gotime.Second <? now - t).
Proof.
  unfold gotime.Since, gotime.Sub, gotime.minDuration, gotime.maxDuration,
    gotime.Second.
  change (2 ^ 63) with 9223372036854775808.
  repeat match goal with
         | |- context [?a <? ?b] => destruct (Z.ltb_spec a b)
         | H : context [?a <? ?b] |- _ => destruct (Z.ltb_spec a b)
         end; first [reflexivity | exfalso; lia].
Qed.

Lemma countFailure_first now gb :
  failedTimes gb = 0 →
  countFailure now gb = (set_failedTime now (set_failedTimes 1 gb), []).
Proof. intros H0. unfold countFailure. simpl. by rewrite H0. Qed.

Lemma countFailure_expired now gb :
  intRange (failedTimes gb) → failedTimes gb ≠ 0 →
  5 * gotime.Second < now - failedTime gb →
  countFailure now gb = (set_failedTimes 0 gb, []).
Proof.
  intros Hr Hn Hlate. unfold countFailure, failedTimeoutInterval. simpl.
  destruct (Z.eqb_spec (int_wrap (failedTimes gb + 1)) 1) as [Hw|_].
  { by apply int_wrap_succ_1 in Hw. }
  rewrite Since_window. by destruct (Z.ltb_spec (5 * gotime.Second)
                                       (now - failedTime gb)); [|lia].
Qed.

Lemma countFailure_below now gb :
  1 ≤ failedTimes gb < 4 → now - failedTime gb ≤ 5 * gotime.Second →
  countFailure now gb = (set_failedTimes (failedTimes gb + 1) gb, []).
Proof.
  intros Hn Hin. unfold countFailure, failedTimeoutInterval, maxFailedTimes.
  simpl. rewrite int_wrap_small by (unfold intRange; lia).
  destruct (Z.eqb_spec (failedTimes gb + 1) 1); [lia|].
  rewrite Since_window.
  destruct (Z.ltb_spec (5 * gotime.Second) (now - failedTime gb)); [lia|].
  by destruct (Z.leb_spec 5 (failedTimes gb + 1)); [lia|].
Qed.

Lemma countFailure_threshold now gb :
  4 ≤ failedTimes gb < 2 ^ 63 - 1 →
  now - failedTime gb ≤ 5 * gotime.Second →
  countFailure now gb =
  healthCheck (set_failedTimes (failedTimes gb + 1) gb).
Proof.
  intros Hn Hin. unfold countFailure, failedTimeoutInterval, maxFailedTimes.
  simpl. rewrite int_wrap_small by (unfold intRange; lia).
  destruct (Z.eqb_spec (failedTimes gb + 1) 1); [lia|].
  rewrite Since_window.
  destruct (Z.ltb_spec (5 * gotime.Second) (now - failedTime gb)); [lia|].
  by destruct (Z.leb_spec 5 (failedTimes gb + 1)); [|lia].
Qed.

(** Below the threshold a failure raises no event, and the counter grows
    by one at most. *)
Lemma countFailure_quiet now gb :
  0 ≤ failedTimes gb < 4 →
  (countFailure now gb).2 = [] ∧
  0 ≤ failedTimes (countFailure now gb).1 ≤ failedTimes gb + 1.
Proof.
  intros Hn. destruct (decide (failedTimes gb = 0)) as [H0|H0].
  { rewrite countFailure_first by done. simpl. split; [done|lia]. }
  destruct (Z.le_gt_cases (now - failedTime gb) (5 * gotime.Second)).
  - rewrite countFailure_below by lia. simpl. split; [done|lia].
  - rewrite countFailure_expired by (unfold intRange; lia). simpl.
    split; [done|lia].
Qed.

Lemma reportFailures_quiet adapterType err times :
  routable adapterType → refused err = false →
  ∀ gb, 0 ≤ failedTimes gb → failedTimes gb + Z.of_nat (length times) < 5 →
        (reportFailures adapterType err times gb).2 = [].
Proof.
  intros Hk Herr. induction times as [|now times IH]; intros gb Hn Hlen.
  - done.
  - rewrite reportFailures_cons by done. simpl in *.
    destruct (countFailure_quiet now gb) as [-> Hc]; [lia|].
    simpl. apply IH; lia.
Qed.

(** C5: a refused connection, reported for a routable kind, starts the
    health check at once, whatever the counter says, and [onDialFailed]
    leaves the group, counter included, as it was. The goroutine it starts
    is [healthCheck] itself, which never raises the counter. *)
Theorem C5_refused_triggers_sweep adapterType err gb :
  routable adapterType → refused err = true →
  onDialFailed adapterType err gb = (gb, [GoHealthCheck]) ∧
  (∀ n, onDialFailed adapterType err (set_failedTimes n gb) =
        (set_failedTimes n gb, [GoHealthCheck])) ∧
  (∀ now, runGoroutine now GoHealthCheck gb = healthCheck gb) ∧
  failedTimes (healthCheck gb).1 =
    (if failedTesting gb then failedTimes gb else 0).
Proof.
  intros Hk Herr. split_and!.
  - by apply onDialFailed_refused.
  - intros n. by apply onDialFailed_refused.
  - done.
  - rewrite healthCheck_eq. by destruct (failedTesting gb).
Qed.

Ltac count_failures :=
  repeat (rewrite reportFailures_cons by done;
          first [ rewrite countFailure_first by (simpl; lia)
                | rewrite countFailure_below
                    by (unfold gotime.Second; simpl; lia)
                | rewrite countFailure_expired
                    by (unfold intRange, gotime.Second; simpl; lia)
                | rewrite countFailure_threshold
                    by (unfold gotime.Second; simpl; lia) ];
          cbn [fst snd]).

(** C4: with the threshold of 5 and the window of 5 seconds, on a group
    whose counter is at zero and which has no sweep in flight, with a
    routable kind and an error other than a refused connection: five
    failures within 4 seconds of the first start exactly one sweep; five
    failures of which the last comes more than 5 seconds after the first
    (across 10 seconds, say) start none, and the first of them that
    comes more than 5 seconds after the recorded time of the first failure
    puts the counter back to zero. So does any failure that comes more
    than 5 seconds after a recorded first failure. *)
Theorem C4_failure_escalation adapterType err gb t1 t2 t3 t4 t5 :
  routable adapterType → refused err = false →
  failedTimes gb = 0 → failedTesting gb = false →
  let times := [t1; t2; t3; t4; t5] in
  let after (n : nat) := (reportFailures adapterType err (take n times) gb).1 in
  maxFailedTimes gb = 5 ∧
  failedTimeoutInterval gb = 5 * gotime.Second ∧
  ((∀ t, t ∈ times → 0 ≤ t - t1 ≤ 4 * gotime.Second) →
   sweeps (reportFailures adapterType err times gb).2 = 1%nat ∧
   healthChecked (reportFailures adapterType err times gb).2 =
     seq 0 (length (providers gb))) ∧
  (5 * gotime.Second < t5 - t1 →
   sweeps (reportFailures adapterType err times gb).2 = 0%nat ∧
   ∃ k, (1 ≤ k ≤ 4)%nat ∧
     (∀ j t, (j < k)%nat → times !! j = Some t →
             t - t1 ≤ 5 * gotime.Second) ∧
     (∃ t, times !! k = Some t ∧ 5 * gotime.Second < t - t1) ∧
     failedTime (after k) = t1 ∧
     failedTimes (after k) = Z.of_nat k ∧
     failedTimes (after (Datatypes.S k)) = 0) ∧
  (∀ gb' now,
     intRange (failedTimes gb') → failedTimes gb' ≠ 0 →
     5 * gotime.Second < now - failedTime gb' →
     reportFailure adapterType err now gb' = (set_failedTimes 0 gb', [])).
Proof.
  intros Hk Herr H0 Hflag times after. split_and!; [done|done|..].
  - intros Hin. subst times.
    assert (0 ≤ t2 - t1 ≤ 4 * gotime.Second) by (apply Hin; set_solver).
    assert (0 ≤ t3 - t1 ≤ 4 * gotime.Second) by (apply Hin; set_solver).
    assert (0 ≤ t4 - t1 ≤ 4 * gotime.Second) by (apply Hin; set_solver).
    assert (0 ≤ t5 - t1 ≤ 4 * gotime.Second) by (apply Hin; set_solver).
    unfold gotime.Second in *.
    count_failures. rewrite healthCheck_eq. cbn [failedTesting set_failedTimes
      set_failedTime]. rewrite Hflag. cbn [fst snd].
    rewrite !app_nil_l, app_nil_r. split.
    + change (EvStoreFailedTesting true :: ?l) with
        ([EvStoreFailedTesting true] ++ l).
      by rewrite !sweeps_app, sweeps_provider_events.
    + unfold healthChecked. simpl. rewrite omap_app. simpl.
      rewrite app_nil_r. apply healthChecked_provider_events.
  - intros Hlate. subst times after. unfold gotime.Second in *.
    destruct (Z.le_gt_cases (t2 - t1) (5 * 1000000000)) as [H2|H2];
      [destruct (Z.le_gt_cases (t3 - t1) (5 * 1000000000)) as [H3|H3];
       [destruct (Z.le_gt_cases (t4 - t1) (5 * 1000000000)) as [H4|H4]|]|].
    + split.
      * count_failures. done.
      * exists 4%nat. split_and!; [lia|lia| | | | |].
        -- intros j t Hj Ht.
           destruct j as [|[|[|[|j]]]]; simpl in Ht; simplify_eq; lia.
        -- by exists t5.
        -- simpl take. count_failures. done.
        -- simpl take. count_failures. done.
        -- simpl take. count_failures. done.
    + split.
      * change [t1; t2; t3; t4; t5] with ([t1; t2; t3; t4] ++ [t5]).
        rewrite reportFailures_app. cbn [snd].
        rewrite (reportFailures_quiet adapterType err [t5]); [| done..| |].
        -- rewrite app_nil_r. count_failures. done.
        -- count_failures. simpl. lia.
        -- count_failures. simpl. lia.
      * exists 3%nat. split_and!; [lia|lia| | | | |].
        -- intros j t Hj Ht.
           destruct j as [|[|[|[|j]]]]; simpl in Ht; simplify_eq; lia.
        -- by exists t4.
        -- simpl take. count_failures. done.
        -- simpl take. count_failures. done.
        -- simpl take. count_failures. done.
    + split.
      * change [t1; t2; t3; t4; t5] with ([t1; t2; t3] ++ [t4; t5]).
        rewrite reportFailures_app. cbn [snd].
        rewrite (reportFailures_quiet adapterType err [t4; t5]); [| done..| |].
        -- rewrite app_nil_r. count_failures. done.
        -- count_failures. simpl. lia.
        -- count_failures. simpl. lia.
      * exists 2%nat. split_and!; [lia|lia| | | | |].
        -- intros j t Hj Ht.
           destruct j as [|[|[|[|j]]]]; simpl in Ht; simplify_eq; lia.
        -- by exists t3.
        -- simpl take. count_failures. done.
        -- simpl take. count_failures. done.
        -- simpl take. count_failures. done.
    + split.
      * change [t1; t2; t3; t4; t5] with ([t1; t2] ++ [t3; t4; t5]).
        rewrite reportFailures_app. cbn [snd].
        rewrite (reportFailures_quiet adapterType err [t3; t4; t5]);
          [| done..| |].
        -- rewrite app_nil_r. count_failures. done.
        -- count_failures. simpl. lia.
        -- count_failures. simpl. lia.
      * exists 1%nat. split_and!; [lia|lia| | | | |].
        -- intros j t Hj Ht.
           destruct j as [|[|[|[|j]]]]; simpl in Ht; simplify_eq; lia.
        -- by exists t2.
        -- simpl take. count_failures. done.
        -- simpl take. count_failures. done.
        -- simpl take. count_failures. done.
  - intros gb' now Hr Hn Hlate. rewrite reportFailure_counted by done.
    by apply countFailure_expired.
Qed.

End failure_facts.

(** ** The failure tracker on a concrete group *)

Lemma Routed_routable : routable C.Routed.
Proof. unfold routable. set_solver. Defined.

Lemma C4_failure_escalation_witness :
  sweeps (reportFailures C.Routed static.timeout static.dense
            static.healthy).2 = 1%nat ∧
  sweeps (reportFailures C.Routed static.timeout static.sparse
            static.healthy).2 = 0%nat ∧
  reportFailure C.Routed static.timeout (6 * gotime.Second)
    (set_failedTimes 3 static.healthy) =
  (set_failedTimes 0 (set_failedTimes 3 static.healthy), []).
Proof.
  split_and!.
  - refine (proj1 (proj1 (proj2 (proj2
      (C4_failure_escalation C.Routed static.timeout static.healthy
         0 (1 * gotime.Second) (2 * gotime.Second) (3 * gotime.Second)
         (4 * gotime.Second) Routed_routable eq_refl eq_refl eq_refl))) _)).
    intros t Ht. unfold gotime.Second in *.
    repeat (apply elem_of_cons in Ht as [->|Ht]; [lia|]).
    by apply elem_of_nil in Ht.
  - refine (proj1 (proj1 (proj2 (proj2 (proj2
      (C4_failure_escalation C.Routed static.timeout static.healthy
         0 (2500 * gotime.Millisecond) (5 * gotime.Second)
         (7500 * gotime.Millisecond) (10 * gotime.Second)
         Routed_routable eq_refl eq_refl eq_refl)))) _));
      unfold gotime.Second, gotime.Millisecond; lia.
  - refine (proj2 (proj2 (proj2 (proj2
      (C4_failure_escalation C.Routed static.timeout static.healthy
         0 0 0 0 0 Routed_routable eq_refl eq_refl eq_refl))))
      (set_failedTimes 3 static.healthy) (6 * gotime.Second) _ _ _);
      unfold intRange, gotime.Second; simpl; lia.
Defined.

(** The counter along the sparse failures: reset by the fourth. *)
Example sparse_counter :
  (λ n, failedTimes (reportFailures C.Routed static.timeout
                       (take n static.sparse) static.healthy).1)
    <$> [1; 2; 3; 4; 5]%nat = [1; 2; 3; 0; 1].
Proof. by vm_compute. Qed.

Example dense_trace :
  (reportFailures C.Routed static.timeout static.dense static.healthy).2 =
  [EvStoreFailedTesting true; EvProviderHealthCheck 0;
   EvProviderHealthCheck 1; EvStoreFailedTesting false].
Proof. by vm_compute. Qed.

Lemma C5_refused_triggers_sweep_witness :
  onDialFailed C.Routed static.connRefused static.healthy =
    (static.healthy, [GoHealthCheck]) ∧
  (∀ n, onDialFailed C.Routed static.connRefused
          (set_failedTimes n static.healthy) =
        (set_failedTimes n static.healthy, [GoHealthCheck])) ∧
  (∀ now, runGoroutine now GoHealthCheck static.healthy =
          healthCheck static.healthy) ∧
  failedTimes (healthCheck static.healthy).1 =
    (if failedTesting static.healthy then failedTimes static.healthy else 0).
Proof.
  exact (C5_refused_triggers_sweep C.Routed static.connRefused
           static.healthy Routed_routable eq_refl).
Defined.

(** A sweep in flight: the second call returns at once. *)
Example healthCheck_in_flight :
  healthCheck (set_failedTesting true static.healthy) =
  (set_failedTesting true static.healthy, []).
Proof. done. Qed.

Example healthCheck_sweep :
  (healthCheck (set_failedTimes 4 static.healthy)).2 =
  [EvStoreFailedTesting true; EvProviderHealthCheck 0;
   EvProviderHealthCheck 1; EvStoreFailedTesting false] ∧
  static.healthChecks <$> providers
    (healthCheck (set_failedTimes 4 static.healthy)).1 = [1; 1]%nat ∧
  failedTimes (healthCheck (set_failedTimes 4 static.healthy)).1 = 0.
Proof. by vm_compute. Qed.

(** ** The group as [NewGroupBase] makes it *)
Section NewGroupBase_facts.

Context {P : Type} `{!types.ProxyProvider P}.
Variable regexp2_MustCompile : string → option regexp2.Regexp.

(** A new group is well formed, its counter is at zero, no sweep is in
    flight and its cache, being empty, holds filtered lists. *)
Lemma NewGroupBase_fresh (opt : GroupBaseOption P) (gb : GroupBase P) :
  NewGroupBase regexp2_MustCompile opt = Some gb →
  wellFormed gb ∧ providers gb = opt_providers opt ∧
  failedTimes gb = 0 ∧ failedTesting gb = false ∧
  ∀ pds, cacheFiltered (filterRegs gb) pds (proxies gb).
Proof.
  unfold NewGroupBase.
  destruct (if String.eqb (opt_filter opt) "" then Some [] else _)
    as [regs|]; [|done].
  simpl. intros [= <-]. split_and!; try done.
  - split; simpl; apply length_replicate.
  - intros pds i pd slot _ Hslot _. simpl in Hslot.
    apply lookup_replicate in Hslot as [-> _]. constructor.
Qed.

End NewGroupBase_facts.

Example NewGroupBase_two_filters :
  (λ gb, (length (filterRegs gb), proxies gb, versions gb)) <$>
    NewGroupBase (λ pattern, Some (static.startsWith pattern))
      {| opt_name := "group"; opt_filter := "a`b";
         opt_providers := [static.make [] 1 types.HTTP;
                           static.make [] 1 types.File] |} =
  Some (2%nat, [[]; []], [0%N; 0%N]).
Proof. by vm_compute. Qed.

(** * Further properties of the code *)

(** ** Resolve: what a call keeps and what it writes *)
Section GetProxies_more.

Context {P : Type} `{!types.ProxyProvider P}.
Variable tunnel_Proxies : string → C.Proxy.

Implicit Types (gb : GroupBase P) (pd : P) (p : C.Proxy).

#[local] Abbreviation fallback := (tunnel_Proxies "COMPATIBLE").

Lemma resolved_not_nil gb (all : list C.Proxy) :
  resolved fallback gb all ≠ [].
Proof.
  unfold resolved. destruct all as [|p all]; [done|].
  destruct (secondPass gb); [|done]. intros Hnil.
  assert (C.Name p ∈ names (crossProviderPass (filterRegs gb) (p :: all)))
    as Hin by (apply elem_of_names_crossProviderPass; unfold names; set_solver).
  rewrite Hnil in Hin. by apply elem_of_nil in Hin.
Qed.

(** X1: on a well-formed group [GetProxies] returns, and what it returns
    is never the empty list. *)
Theorem X1_GetProxies_never_empty touch gb :
  wellFormed gb →
  ∃ r gb', GetProxies tunnel_Proxies touch gb = Some (r, gb') ∧ r ≠ [].
Proof.
  intros Hwf. rewrite GetProxies_total by done.
  eexists _, _. split; [done|]. apply resolved_not_nil.
Qed.

Lemma GetProxies_state touch gb :
  wellFormed gb →
  ∃ r, GetProxies tunnel_Proxies touch gb =
       Some (r, match filterRegs gb with
                | [] => set_providers (touched touch (providers gb)) gb
                | _ => refreshed touch gb
                end).
Proof. intros Hwf. rewrite GetProxies_total by done. by eexists. Qed.

(** X2: a call of [GetProxies] keeps the group well formed. It writes the
    two caches and, through [Touch], the providers, each of which is
    touched once when [touch] is set and not at all otherwise; the
    filters, the counter, the time of the first failure and the flag are
    left as they were. *)
Theorem X2_GetProxies_frame touch gb r gb' :
  wellFormed gb →
  GetProxies tunnel_Proxies touch gb = Some (r, gb') →
  wellFormed gb' ∧
  providers gb' = (if touch then types.Touch <$> providers gb
                   else providers gb) ∧
  filterRegs gb' = filterRegs gb ∧ Base_name gb' = Base_name gb ∧
  failedTimes gb' = failedTimes gb ∧ failedTime gb' = failedTime gb ∧
  failedTesting gb' = failedTesting gb.
Proof.
  intros Hwf Hget. split; [by eapply GetProxies_wellFormed|].
  destruct (GetProxies_state touch gb Hwf) as [r' Hst].
  rewrite Hst in Hget. injection Hget as _ <-.
  destruct (filterRegs gb) eqn:Hregs; simpl; rewrite ?Hregs;
    by destruct touch.
Qed.

Lemma slotsAfter_current regs (pds : list P) :
  ∀ vs slots,
  length vs = length pds → length slots = length pds →
  slotsAfter regs pds (types.Version <$> pds) (slotsAfter regs pds vs slots) =
  slotsAfter regs pds vs slots.
Proof.
  unfold slotsAfter. induction pds as [|pd pds IH]; intros vs slots Hvs Hslots.
  - done.
  - destruct vs as [|v vs]; [done|]. destruct slots as [|slot slots]; [done|].
    simpl in *. f_equal; [|apply IH; lia].
    unfold slotAfter.
    destruct (decide (types.VehicleType_of pd = types.Compatible)); [done|].
    by rewrite (decide_False (P := types.Version pd ≠ types.Version pd))
      by (intros Hne; by apply Hne).
Qed.

Lemma refreshed_again touch gb :
  wellFormed gb → refreshed false (refreshed touch gb) = refreshed touch gb.
Proof.
  intros [Hslots Hvs]. destruct gb as [nm regs pds ft ftm ftst slots vs].
  unfold refreshed. simpl in *.
  rewrite slotsAfter_current; [done|by rewrite touched_length..].
Qed.

Lemma resolved_ext gb1 gb2 (all : list C.Proxy) :
  length (providers gb1) = length (providers gb2) →
  filterRegs gb1 = filterRegs gb2 →
  resolved fallback gb1 all = resolved fallback gb2 all.
Proof.
  intros Hlen Hregs. unfold resolved, secondPass. by rewrite Hlen, Hregs.
Qed.

(** X3: the cache is stable. A call without touch that follows any call
    of [GetProxies], nothing having happened to the providers in between,
    returns the same list and leaves the group as it finds it. *)
Theorem X3_GetProxies_repeat touch gb r gb' :
  wellFormed gb →
  GetProxies tunnel_Proxies touch gb = Some (r, gb') →
  GetProxies tunnel_Proxies false gb' = Some (r, gb').
Proof.
  intros Hwf Hget.
  pose proof (GetProxies_wellFormed _ _ _ _ _ Hwf Hget) as Hwf'.
  rewrite GetProxies_total in Hget by done. injection Hget as <- <-.
  rewrite GetProxies_total by done. unfold combined.
  destruct (filterRegs gb) as [|reg regs] eqn:Hregs.
  - assert (filterRegs (set_providers (touched touch (providers gb)) gb) = [])
      as -> by done.
    simpl.
    rewrite (resolved_ext (set_providers (touched touch (providers gb)) gb) gb)
      by (apply touched_length || done).
    by destruct gb.
  - rewrite refreshed_filterRegs, Hregs, refreshed_again by done.
    rewrite (resolved_ext (refreshed touch gb) gb); [done| |done].
    rewrite refreshed_providers. apply touched_length.
Qed.

(** X4: after a call with filters the cached version of every provider is
    the provider's own. *)
Theorem X4_versions_current touch gb r gb' :
  wellFormed gb → filterRegs gb ≠ [] →
  GetProxies tunnel_Proxies touch gb = Some (r, gb') →
  versions gb' = types.Version <$> providers gb'.
Proof.
  intros Hwf Hregs Hget.
  rewrite GetProxies_total in Hget by done. injection Hget as _ <-.
  by destruct (filterRegs gb).
Qed.

(** X5: the cache slot of a provider that is not of the passthrough kind.
    When the cached version is the provider's, the slot is kept, whatever
    the provider lists now; otherwise it becomes the backends of the
    provider that match a filter, filters in order, first seen wins. *)
Theorem X5_slot_hit_or_miss touch gb r gb' i pd v slot :
  wellFormed gb → filterRegs gb ≠ [] →
  GetProxies tunnel_Proxies touch gb = Some (r, gb') →
  touched touch (providers gb) !! i = Some pd →
  versions gb !! i = Some v → proxies gb !! i = Some slot →
  types.VehicleType_of pd ≠ types.Compatible →
  proxies gb' !! i =
  Some (if decide (v = types.Version pd) then slot
        else firstSeenWins ∅ (matchingEach (filterRegs gb) (types.Proxies pd))).
Proof.
  intros Hwf Hregs Hget Hpd Hv Hslot Hkind.
  rewrite GetProxies_total in Hget by done. injection Hget as _ <-.
  assert (match filterRegs gb with
          | [] => set_providers (touched touch (providers gb)) gb
          | _ => refreshed touch gb
          end = refreshed touch gb) as -> by (by destruct (filterRegs gb)).
  apply refreshed_slot. exists pd, v, slot. split_and!; try done.
  unfold slotAfter. rewrite (decide_False (P := _ = types.Compatible)) by done.
  rewrite filterProxies_eq.
  destruct (decide (v = types.Version pd)) as [Heq|Hne];
    by destruct (decide (v ≠ types.Version pd)).
Qed.

(** X6: the list the filter loops build from a provider's list [l]. No
    name is in it twice; its members are members of [l] that match a
    filter; every name of [l] that matches a filter is in it; and with a
    single filter it keeps the order of [l]. *)
Theorem X6_filterProxies_sound_complete (regs : list regexp2.Regexp)
    (l : list C.Proxy) :
  NoDup (names (filterProxies regs l)) ∧
  (∀ p, p ∈ filterProxies regs l →
        p ∈ l ∧ matchesAny regs (C.Name p) = true) ∧
  (∀ p, p ∈ l → matchesAny regs (C.Name p) = true →
        C.Name p ∈ names (filterProxies regs l)) ∧
  (∀ reg, filterProxies [reg] l `sublist_of` l).
Proof.
  split_and!.
  - apply NoDup_names_filterProxies.
  - intros p. rewrite filterProxies_eq.
    intros [Hp _]%elem_of_firstSeenWins. by apply elem_of_matchingEach.
  - intros p Hp Hm. rewrite filterProxies_eq.
    apply elem_of_names_firstSeenWins. split; [|set_solver].
    apply list_elem_of_fmap_2. by apply elem_of_matchingEach.
  - intros reg. rewrite filterProxies_eq. etrans; [apply sublist_firstSeenWins|].
    unfold matchingEach. simpl. rewrite app_nil_r. apply sublist_filter.
Qed.

(** X7: without filters [GetProxies] returns on every group, well formed
    or not; it returns the providers' lists one after the other, or the
    fallback when they are all empty, leaves both caches alone and, when
    [touch] is not set, the whole group. *)
Theorem X7_no_filter_no_cache touch gb :
  filterRegs gb = [] →
  ∃ r gb', GetProxies tunnel_Proxies touch gb = Some (r, gb') ∧
    r = (if decide (mjoin (types.Proxies <$> touched touch (providers gb)) = [])
         then [fallback]
         else mjoin (types.Proxies <$> touched touch (providers gb))) ∧
    proxies gb' = proxies gb ∧ versions gb' = versions gb ∧
    (touch = false → gb' = gb).
Proof.
  intros Hregs. rewrite GetProxies_no_filter by done.
  eexists _, _. split; [done|]. split_and!; try done.
  - by destruct (mjoin _).
  - intros ->. by destruct gb.
Qed.

End GetProxies_more.

(** ** The filter loops run twice *)
Section selection_more.

Implicit Types (p : C.Proxy) (l : list C.Proxy) (S : gset string).
Implicit Types (regs : list regexp2.Regexp).

Lemma firstSeenWins_id S l :
  NoDup (names l) → (∀ p, p ∈ l → C.Name p ∉ S) → firstSeenWins S l = l.
Proof.
  unfold names. revert S. induction l as [|q l IH]; intros S Hnd Hout; [done|].
  rewrite fmap_cons in Hnd. apply NoDup_cons in Hnd as [Hq Hnd].
  simpl. rewrite decide_False by (apply Hout; by left). f_equal.
  apply IH; [done|]. intros p Hp.
  specialize (Hout p (list_elem_of_further _ _ _ Hp)).
  assert (C.Name p ≠ C.Name q)
    by (intros Heq; apply Hq; rewrite <- Heq; by apply list_elem_of_fmap_2).
  set_solver.
Qed.

Lemma firstSeenWins_seen S l :
  (∀ p, p ∈ l → C.Name p ∈ S) → firstSeenWins S l = [].
Proof.
  induction l as [|q l IH]; intros Hin; [done|]. simpl.
  rewrite decide_True by (apply Hin; by left).
  apply IH. intros p Hp. apply Hin. by right.
Qed.

Lemma names_firstSeenWins_union S l :
  list_to_set (names (firstSeenWins S l)) ∪ S =
  list_to_set (names l) ∪ S.
Proof.
  apply set_eq. intros n.
  rewrite !elem_of_union, !elem_of_list_to_set, elem_of_names_firstSeenWins.
  destruct (decide (n ∈ S)); naive_solver.
Qed.

(** Backends whose names are seen already play no part. *)
Lemma firstSeenWins_matchingEach_drop regs :
  ∀ S l1 l2,
  (∀ p, p ∈ l1 → C.Name p ∈ S) →
  firstSeenWins S (matchingEach regs (l1 ++ l2)) =
  firstSeenWins S (matchingEach regs l2).
Proof.
  unfold matchingEach. induction regs as [|r regs IH]; intros S l1 l2 Hseen.
  - done.
  - rewrite !bind_cons, !firstSeenWins_app, filter_app, firstSeenWins_app.
    set (h1 := filter (λ p, matched r (C.Name p) = true) l1).
    set (h2 := filter (λ p, matched r (C.Name p) = true) l2).
    assert (∀ n : string, n ∈ names h1 → n ∈ S) as Hn1.
    { intros n (q & -> & [_ Hq]%list_elem_of_filter)%list_elem_of_fmap.
      by apply Hseen. }
    rewrite (firstSeenWins_seen S h1)
      by (intros p Hp; apply Hn1; by apply list_elem_of_fmap_2).
    replace (list_to_set (names h1) ∪ S) with S by set_solver.
    replace (list_to_set (names (h1 ++ h2)) ∪ S)
      with (list_to_set (names h2) ∪ S)
      by (unfold names in *; rewrite fmap_app; set_solver).
    simpl. f_equal. apply IH. intros p Hp. set_solver.
Qed.

Lemma filter_all {A} (Q : A → Prop) `{!∀ x, Decision (Q x)} (l : list A) :
  (∀ x, x ∈ l → Q x) → filter Q l = l.
Proof.
  induction l as [|x l IH]; intros Hall; [done|].
  rewrite filter_cons, decide_True by (apply Hall; by left).
  f_equal. apply IH. intros y Hy. apply Hall. by right.
Qed.

Lemma filter_none {A} (Q : A → Prop) `{!∀ x, Decision (Q x)} (l : list A) :
  (∀ x, x ∈ l → ¬ Q x) → filter Q l = [].
Proof.
  induction l as [|x l IH]; intros Hnone; [done|].
  rewrite filter_cons, decide_False by (apply Hnone; by left).
  apply IH. intros y Hy. apply Hnone. by right.
Qed.

Lemma firstSeenWins_matchingEach_idem regs :
  ∀ S l,
  firstSeenWins S (matchingEach regs
                     (firstSeenWins S (matchingEach regs l))) =
  firstSeenWins S (matchingEach regs l).
Proof.
  induction regs as [|r regs IH]; intros S l; [done|].
  set (hit := filter (λ p, matched r (C.Name p) = true) l).
  set (S1 := list_to_set (names hit) ∪ S).
  set (A1 := firstSeenWins S hit).
  set (A2 := firstSeenWins S1 (matchingEach regs l)).
  assert (firstSeenWins S (matchingEach (r :: regs) l) = A1 ++ A2) as ->.
  { unfold matchingEach. rewrite bind_cons. by rewrite firstSeenWins_app. }
  assert (∀ p, p ∈ A1 → p ∈ hit ∧ C.Name p ∉ S) as HA1
    by (intros p; apply elem_of_firstSeenWins).
  assert (∀ p, p ∈ A2 → p ∈ l ∧ C.Name p ∉ S1) as HA2.
  { intros p [Hp ?]%elem_of_firstSeenWins. split; [|done].
    by apply elem_of_matchingEach in Hp as [? _]. }
  assert (filter (λ p, matched r (C.Name p) = true) A1 = A1) as Hf1.
  { apply filter_all. intros p [Hp _]%HA1.
    by apply list_elem_of_filter in Hp as [? _]. }
  assert (filter (λ p, matched r (C.Name p) = true) A2 = []) as Hf2.
  { apply filter_none. intros p [Hp Hout]%HA2 Hm. apply Hout.
    unfold S1. rewrite elem_of_union, elem_of_list_to_set. left.
    apply list_elem_of_fmap_2. by apply list_elem_of_filter. }
  unfold matchingEach at 1. rewrite bind_cons, firstSeenWins_app.
  rewrite filter_app, Hf1, Hf2, app_nil_r.
  rewrite firstSeenWins_id;
    [|apply NoDup_names_firstSeenWins|intros p Hp; by apply HA1].
  f_equal. unfold A1 at 1. rewrite names_firstSeenWins_union. fold S1.
  fold (matchingEach regs (A1 ++ A2)).
  rewrite firstSeenWins_matchingEach_drop.
  - apply IH.
  - intros p [Hp _]%HA1. unfold S1.
    rewrite elem_of_union, elem_of_list_to_set. left.
    by apply list_elem_of_fmap_2.
Qed.

Lemma matchingEach_app_unmatched regs l1 l2 :
  (∀ p, p ∈ l2 → matchesAny regs (C.Name p) = false) →
  matchingEach regs (l1 ++ l2) = matchingEach regs l1.
Proof.
  unfold matchingEach, matchesAny.
  induction regs as [|r regs IH]; intros Hmiss; [done|].
  rewrite !bind_cons, filter_app. rewrite (filter_none _ l2).
  - rewrite app_nil_r. f_equal. apply IH. intros p Hp.
    specialize (Hmiss p Hp). simpl in Hmiss.
    by apply orb_false_iff in Hmiss as [_ ?].
  - intros p Hp Hm. specialize (Hmiss p Hp). simpl in Hmiss.
    apply orb_false_iff in Hmiss as [? _]. congruence.
Qed.

(** X8: the filter loops and the second pass are idempotent: run on
    their own result they change nothing. *)
Theorem X8_passes_idempotent regs l :
  filterProxies regs (filterProxies regs l) = filterProxies regs l ∧
  crossProviderPass regs (crossProviderPass regs l) =
  crossProviderPass regs l.
Proof.
  split.
  - rewrite !filterProxies_eq. apply firstSeenWins_matchingEach_idem.
  - rewrite (crossProviderPass_eq regs l).
    set (A := firstSeenWins ∅ (matchingEach regs l)).
    set (B := firstSeenWins ∅ (unmatchedOf regs l)).
    assert (∀ p, p ∈ A → matchesAny regs (C.Name p) = true) as HA.
    { intros p [Hp _]%elem_of_firstSeenWins.
      by apply elem_of_matchingEach in Hp as [_ ?]. }
    assert (∀ p, p ∈ B → matchesAny regs (C.Name p) = false) as HB.
    { intros p [Hp _]%elem_of_firstSeenWins.
      by apply list_elem_of_filter in Hp as [? _]. }
    rewrite crossProviderPass_eq. f_equal.
    + rewrite matchingEach_app_unmatched by done.
      apply firstSeenWins_matchingEach_idem.
    + unfold unmatchedOf at 1. rewrite filter_app.
      rewrite (filter_none _ A), (filter_all _ B); [| done |].
      * apply firstSeenWins_id; [apply NoDup_names_firstSeenWins|set_solver].
      * intros p Hp. rewrite (HA p Hp). done.
Qed.

End selection_more.

(** ** Package strings: what the three functions compute *)
Section gostrings_facts.

Implicit Types (s sub : string) (c sep : Ascii.ascii).

Lemma HasPrefix_spec s sub :
  gostrings.HasPrefix s sub = true ↔ ∃ post, s = sub +:+ post.
Proof.
  revert s. induction sub as [|c sub IH]; intros s.
  - destruct s; simpl; (split; [by eexists|done]).
  - destruct s as [|d s]; simpl; [split; [done|by intros [? [=]]]|].
    destruct (Ascii.eqb_spec c d) as [->|Hne].
    + rewrite IH. split; intros [post Hpost]; exists post.
      * by rewrite Hpost.
      * by injection Hpost.
    + split; [done|]. intros [post [= ? _]]. by subst.
Qed.

(** [Contains s sub] says that [sub] occurs in [s]. *)
Lemma Contains_spec s sub :
  gostrings.Contains s sub = true ↔ ∃ pre post, s = pre +:+ sub +:+ post.
Proof.
  induction s as [|d s IH].
  - change (gostrings.Contains "" sub)
      with (gostrings.HasPrefix "" sub || false).
    rewrite orb_false_r, HasPrefix_spec. split.
    + intros [post Hpost]. by exists "", post.
    + intros ([|??] & post & Hpost); [by exists post|done].
  - change (gostrings.Contains (String d s) sub)
      with (gostrings.HasPrefix (String d s) sub || gostrings.Contains s sub).
    rewrite orb_true_iff, HasPrefix_spec, IH. split.
    + intros [[post Hpost]|(pre & post & Hpost)].
      * by exists "", post.
      * exists (String d pre), post. by rewrite Hpost.
    + intros ([|e pre] & post & Hpost).
      * left. by exists post.
      * right. exists pre, post. by injection Hpost.
Qed.

Lemma Split_not_nil s sep : gostrings.Split s sep ≠ [].
Proof.
  destruct s as [|c s]; simpl; [done|].
  destruct (Ascii.eqb c sep); [done|]. by destruct (gostrings.Split s sep).
Qed.

Lemma Join_cons_cons (x y : string) (rest : list string) sep :
  gostrings.Join (x :: y :: rest) sep =
  x +:+ String sep (gostrings.Join (y :: rest) sep).
Proof. done. Qed.

(** [Join] undoes [Split], and no piece holds the separator. *)
Lemma Join_Split s sep :
  gostrings.Join (gostrings.Split s sep) sep = s ∧
  Forall (λ piece, gostrings.hasByte piece sep = false)
    (gostrings.Split s sep).
Proof.
  induction s as [|c s [IHj IHf]]; [by repeat constructor|].
  pose proof (Split_not_nil s sep) as Hne.
  change (gostrings.Split (String c s) sep)
    with (if Ascii.eqb c sep then EmptyString :: gostrings.Split s sep
          else match gostrings.Split s sep with
               | hd :: tl => String c hd :: tl
               | [] => [String c EmptyString]
               end).
  destruct (gostrings.Split s sep) as [|hd tl]; [done|].
  apply Forall_cons in IHf as [Hhd Htl].
  destruct (Ascii.eqb_spec c sep) as [->|Hc].
  - split; [|by repeat constructor].
    by rewrite Join_cons_cons, IHj.
  - split.
    + destruct tl as [|hd' tl].
      * simpl in *. by rewrite IHj.
      * rewrite Join_cons_cons in *. by rewrite <- IHj.
    + constructor; [|done]. simpl. rewrite Hhd, orb_false_r.
      by apply Ascii.eqb_neq.
Qed.

End gostrings_facts.

(** ** New groups, [Touch] and the first calls *)
Section construction_more.

Context {P : Type} `{!types.ProxyProvider P}.
Variable tunnel_Proxies : string → C.Proxy.
Variable regexp2_MustCompile : string → option regexp2.Regexp.

Implicit Types (gb : GroupBase P) (opt : GroupBaseOption P).

#[local] Abbreviation fallback := (tunnel_Proxies "COMPATIBLE").

Lemma NewGroupBase_Some opt gb :
  NewGroupBase regexp2_MustCompile opt = Some gb ↔
  ∃ regs,
    (if String.eqb (opt_filter opt) "" then Some []
     else mapM regexp2_MustCompile
            (gostrings.Split (opt_filter opt) "`"%char)) = Some regs ∧
    gb = {| Base_name := opt_name opt; filterRegs := regs;
            providers := opt_providers opt; failedTimes := 0;
            failedTime := 0; failedTesting := false;
            proxies := replicate (length (opt_providers opt)) [];
            versions := replicate (length (opt_providers opt)) 0%N |}.
Proof.
  unfold NewGroupBase.
  destruct (if String.eqb (opt_filter opt) "" then Some [] else _)
    as [regs|]; simpl.
  - split; [intros [= <-]; by exists regs|intros (? & [= <-] & ->); done].
  - split; [done|by intros (? & [=] & _)].
Qed.

(** X9: the patterns of a new group. An empty filter string gives no
    pattern. Any other string is cut at the backquotes: the pieces, put
    together again with backquotes, are the string, none of them holds a
    backquote, and the patterns are the pieces compiled, in order, so
    there is at least one. [NewGroupBase] panics exactly when a piece does
    not compile. *)
Theorem X9_NewGroupBase_patterns opt :
  (opt_filter opt = "" →
   ∃ gb, NewGroupBase regexp2_MustCompile opt = Some gb ∧
         filterRegs gb = []) ∧
  (opt_filter opt ≠ "" →
   ∃ pieces,
     gostrings.Join pieces "`"%char = opt_filter opt ∧
     Forall (λ piece, gostrings.hasByte piece "`"%char = false) pieces ∧
     pieces ≠ [] ∧
     (NewGroupBase regexp2_MustCompile opt = None ↔
      ∃ piece, piece ∈ pieces ∧ regexp2_MustCompile piece = None) ∧
     ∀ gb, NewGroupBase regexp2_MustCompile opt = Some gb →
           Forall2 (λ piece reg, regexp2_MustCompile piece = Some reg)
             pieces (filterRegs gb) ∧
           filterRegs gb ≠ []).
Proof.
  split.
  - intros Hf.
    exists (Build_GroupBase (opt_name opt) [] (opt_providers opt) 0 0 false
              (replicate (length (opt_providers opt)) [])
              (replicate (length (opt_providers opt)) 0%N)).
    split; [|done].
    apply NewGroupBase_Some. exists []. split; [by rewrite Hf|done].
  - intros Hf. apply String.eqb_neq in Hf.
    exists (gostrings.Split (opt_filter opt) "`"%char).
    destruct (Join_Split (opt_filter opt) "`"%char) as [Hj Hb].
    pose proof (Split_not_nil (opt_filter opt) "`"%char) as Hne.
    split_and!; [done..| |].
    + rewrite <- Exists_exists, <- mapM_None. unfold NewGroupBase.
      rewrite Hf. by destruct (mapM _ _).
    + intros gb (regs & Hregs & ->)%NewGroupBase_Some. rewrite Hf in Hregs.
      apply mapM_Some in Hregs. simpl. split; [done|].
      intros ->. apply Forall2_nil_inv_r in Hregs. done.
Qed.

Lemma GroupBase_Touch_wellFormed gb :
  wellFormed gb → wellFormed (GroupBase_Touch gb).
Proof.
  intros [Hs Hv]. unfold wellFormed, GroupBase_Touch. simpl.
  by rewrite length_fmap.
Qed.

(** X10: to call [Touch] and then [GetProxies] without touch is to call
    [GetProxies] with touch. *)
Theorem X10_Touch_then_GetProxies gb :
  wellFormed gb →
  GetProxies tunnel_Proxies false (GroupBase_Touch gb) =
  GetProxies tunnel_Proxies true gb.
Proof.
  intros Hwf.
  rewrite !GetProxies_total by (done || by apply GroupBase_Touch_wellFormed).
  assert (combined false (GroupBase_Touch gb) = combined true gb) as ->
    by (unfold combined; by destruct gb as [? [|??]]).
  assert (resolved fallback (GroupBase_Touch gb) (combined true gb) =
          resolved fallback gb (combined true gb)) as ->.
  { unfold resolved, secondPass, GroupBase_Touch. simpl.
    by rewrite length_fmap. }
  by destruct gb as [? [|??]].
Qed.

(** X11: the zero version of a new cache slot. With filters, a provider
    that is not of the passthrough kind and whose version is zero when a
    new group is first resolved is taken to be cached already: if all
    providers are such, the group resolves to the fallback, whatever they
    list. *)
Theorem X11_new_group_version_zero touch opt gb :
  NewGroupBase regexp2_MustCompile opt = Some gb →
  opt_filter opt ≠ "" →
  Forall (λ pd, types.VehicleType_of pd ≠ types.Compatible ∧
                types.Version pd = 0%N)
    (touched touch (opt_providers opt)) →
  ∃ gb', GetProxies tunnel_Proxies touch gb = Some ([fallback], gb').
Proof.
  intros Hnew Hf Hzero.
  apply String.eqb_neq in Hf.
  apply NewGroupBase_Some in Hnew as (regs & Hregs & ->).
  rewrite Hf in Hregs. apply mapM_Some in Hregs.
  set (gb := Build_GroupBase _ _ _ _ _ _ _ _).
  assert (wellFormed gb) as Hwf by (split; simpl; apply length_replicate).
  assert (filterRegs gb ≠ []) as Hne.
  { simpl. intros ->. apply Forall2_nil_inv_r in Hregs.
    by apply Split_not_nil in Hregs. }
  rewrite GetProxies_total by done. eexists.
  assert (combined touch gb = []) as ->; [|done].
  rewrite combined_filter by done. apply join_nil, Forall_lookup.
  intros i slot' (pd & v & slot & Hpd & Hv & Hslot & ->)%refreshed_slot.
  simpl in Hpd, Hv, Hslot.
  apply lookup_replicate in Hv as [-> _].
  apply lookup_replicate in Hslot as [-> _].
  destruct (proj1 (Forall_lookup _ _) Hzero i pd Hpd) as [Hkind Hver].
  unfold slotAfter. rewrite decide_False by done.
  by rewrite decide_False by (rewrite Hver; intros Hn; by apply Hn).
Qed.

End construction_more.

(** ** ProbeAll: schedules and name collisions *)
Section URLTest_more.

Context {P : Type} `{!types.ProxyProvider P}.
Variable tunnel_Proxies : string → C.Proxy.
Variables (ctx : context.Context) (url : string).

Implicit Types (gb : GroupBase P) (p : C.Proxy) (mp : gmap string Z).
Implicit Types (order all : list C.Proxy).

#[local] Abbreviation fallback := (tunnel_Proxies "COMPATIBLE").

Lemma foldl_probeStep_keep order mp (name : string) :
  (∀ q, q ∈ order → answers ctx url q = true → C.Name q ≠ name) →
  foldl (probeStep ctx url) mp order !! name = mp !! name.
Proof.
  revert mp. induction order as [|q order IH]; intros mp Hother; [done|].
  simpl. rewrite IH by (intros q' Hq'; apply Hother; by right).
  assert (q ∈ q :: order) as Hq by (by left).
  specialize (Hother q Hq). unfold probeStep, answers in *.
  destruct (C.URLTest q ctx url); [|done].
  by rewrite lookup_insert_ne by (by apply Hother).
Qed.

Lemma collectDelays_map order :
  (collectDelays ctx url order).1 = foldl (probeStep ctx url) ∅ order.
Proof. unfold collectDelays. by destruct (size _ =? 0)%nat. Qed.

(** X12: the last writer wins. The entry under a name is the delay of the
    backend of that name that took the lock last among those that
    answered. *)
Theorem X12_last_writer_wins order1 p order2 (delay : Z) :
  C.URLTest p ctx url = inl delay →
  (∀ q, q ∈ order2 → answers ctx url q = true → C.Name q ≠ C.Name p) →
  (collectDelays ctx url (order1 ++ p :: order2)).1 !! C.Name p = Some delay.
Proof.
  intros Hp Hlast. rewrite collectDelays_map, foldl_app. simpl.
  rewrite foldl_probeStep_keep by done.
  unfold probeStep. rewrite Hp. apply lookup_insert_eq.
Qed.

Lemma NoDup_fmap_inj_on {A B} (f : A → B) (l : list A) (x y : A) :
  NoDup (f <$> l) → x ∈ l → y ∈ l → f x = f y → x = y.
Proof.
  induction l as [|z l IH]; intros Hnd Hx Hy Hf; [by apply elem_of_nil in Hx|].
  rewrite fmap_cons in Hnd. apply NoDup_cons in Hnd as [Hz Hnd].
  apply elem_of_cons in Hx as [->|Hx]; apply elem_of_cons in Hy as [->|Hy].
  - done.
  - exfalso. apply Hz. rewrite Hf. by apply list_elem_of_fmap_2.
  - exfalso. apply Hz. rewrite <- Hf. by apply list_elem_of_fmap_2.
  - by apply IH.
Qed.

Lemma answering_elem_of all p :
  p ∈ answering ctx url all ↔ p ∈ all ∧ answers ctx url p = true.
Proof. unfold answering. rewrite list_elem_of_filter. naive_solver. Qed.

Lemma foldl_probeStep_Permutation order all :
  order ≡ₚ all → NoDup (names (answering ctx url all)) →
  foldl (probeStep ctx url) ∅ order = foldl (probeStep ctx url) ∅ all.
Proof.
  intros Hperm Hnd. apply map_eq. intros name.
  assert (∀ l, l ≡ₚ all → ∀ d,
            foldl (probeStep ctx url) ∅ l !! name = Some d →
            ∃ p, p ∈ answering ctx url all ∧ C.Name p = name ∧
                 C.URLTest p ctx url = inl d) as Hsome.
  { intros l Hl d [Hd|(p & Hp & Hn & Hu)]%foldl_probeStep_lookup.
    - by rewrite lookup_empty in Hd.
    - exists p. split_and!; [|done..]. apply answering_elem_of.
      rewrite <- Hl. split; [done|]. unfold answers. by rewrite Hu. }
  assert (∀ l, l ≡ₚ all →
            dom (foldl (probeStep ctx url) ∅ l) =
            list_to_set (names (answering ctx url all))) as Hdom.
  { intros l Hl.
    rewrite (foldl_probeStep_dom tunnel_Proxies), dom_empty_L,
      union_empty_r_L.
    apply set_eq. intros x. rewrite !elem_of_list_to_set. unfold names.
    by rewrite (answering_Permutation ctx url l all Hl). }
  destruct (foldl (probeStep ctx url) ∅ order !! name) as [d|] eqn:Ho;
    destruct (foldl (probeStep ctx url) ∅ all !! name) as [d'|] eqn:Ha.
  - destruct (Hsome order Hperm d Ho) as (p & Hp & Hn & Hu).
    destruct (Hsome all (reflexivity _) d' Ha) as (p' & Hp' & Hn' & Hu').
    assert (p = p') as <-
      by (apply (NoDup_fmap_inj_on C.Name (answering ctx url all));
          [done..|congruence]).
    congruence.
  - apply elem_of_dom_2 in Ho. apply not_elem_of_dom in Ha.
    rewrite Hdom in Ho by done. by rewrite Hdom in Ha by done.
  - apply elem_of_dom_2 in Ha. apply not_elem_of_dom in Ho.
    rewrite Hdom in Ha by done. by rewrite Hdom in Ho by done.
  - done.
Qed.

(** X13: when the backends that answer have different names, the result
    of [URLTest] does not depend on the order in which the probes finish:
    every schedule gives the map and the error of the run in which the
    goroutines take the lock in the order they were started. *)
Theorem X13_schedule_independent gb all gb0 res gb' :
  GetProxies tunnel_Proxies false gb = Some (all, gb0) →
  NoDup (names (answering ctx url all)) →
  URLTest_returns tunnel_Proxies ctx url gb res gb' →
  URLTest tunnel_Proxies ctx url gb = Some (res, gb').
Proof.
  intros Hget Hnd (all' & order & Hget' & Hperm & ->).
  rewrite Hget in Hget'. injection Hget' as <- <-.
  unfold URLTest, bind, ret. rewrite Hget. do 2 f_equal.
  unfold collectDelays. by rewrite (foldl_probeStep_Permutation order all).
Qed.

(** X14: a group without backends has its fallback probed. When the
    combined list is empty, [URLTest] gives the one entry of the fallback
    backend if that answers, and the error if it does not. *)
Theorem X14_URLTest_probes_fallback gb :
  wellFormed gb → combined false gb = [] →
  ∃ gb', URLTest tunnel_Proxies ctx url gb =
         Some (match C.URLTest fallback ctx url with
               | inl delay => ({[C.Name fallback := delay]}, None)
               | inr _ => (∅, Some "get delay: all proxies timeout")
               end, gb').
Proof.
  intros Hwf Hnil. unfold URLTest, bind, ret.
  rewrite GetProxies_total, Hnil by done. eexists. do 2 f_equal.
  unfold resolved, collectDelays. simpl. unfold probeStep.
  destruct (C.URLTest fallback ctx url); [|done].
  by rewrite insert_empty, map_size_singleton.
Qed.

End URLTest_more.

(** ** The failure tracker: paths, the flag and the counter *)
Section failure_more.

Context {P : Type} `{!types.ProxyProvider P}.

Implicit Types (gb : GroupBase P) (now : gotime.Time).

(** X15: for a routable kind, [onDialFailed] starts the health check at
    once exactly when the text connection refused occurs in the error, and
    the counting goroutine exactly when it does not. *)
Theorem X15_refused_is_substring adapterType err gb :
  routable adapterType →
  (onDialFailed adapterType err gb = (gb, [GoHealthCheck]) ↔
   ∃ pre post, err = pre +:+ "connection refused" +:+ post) ∧
  (onDialFailed adapterType err gb = (gb, [GoCountFailure]) ↔
   ¬ ∃ pre post, err = pre +:+ "connection refused" +:+ post).
Proof.
  intros Hk. rewrite <- Contains_spec. fold (refused err).
  destruct (refused err) eqn:Herr.
  - rewrite onDialFailed_refused by done. split; [done|].
    split; [by intros [=]|]. by intros [].
  - rewrite onDialFailed_counted by done. split; [|done].
    split; [by intros [=]|done].
Qed.

(** X16: for the kinds direct, compatible, reject and pass [onDialFailed]
    does nothing at all, a refused connection included: no goroutine is
    started and the group stays as it is. *)
Theorem X16_sentinel_kinds_ignored adapterType err now gb :
  adapterType ∈ [C.Direct; C.Compatible; C.Reject; C.Pass] →
  onDialFailed adapterType err gb = (gb, []) ∧
  reportFailure adapterType err now gb = (gb, []).
Proof.
  intros Hk.
  assert (onDialFailed adapterType err gb = (gb, [])) as Hnone.
  { unfold onDialFailed.
    repeat (apply elem_of_cons in Hk as [->|Hk]; [done|]).
    by apply elem_of_nil in Hk. }
  split; [done|]. unfold reportFailure. by rewrite Hnone.
Qed.

Lemma countFailure_unfold now gb :
  countFailure now gb =
  (if int_wrap (failedTimes gb + 1) =? 1
   then (set_failedTime now
           (set_failedTimes (int_wrap (failedTimes gb + 1)) gb), [])
   else if 5 * gotime.Second <? now - failedTime gb
   then (set_failedTimes 0 gb, [])
   else if 5 <=? int_wrap (failedTimes gb + 1)
   then healthCheck (set_failedTimes (int_wrap (failedTimes gb + 1)) gb)
   else (set_failedTimes (int_wrap (failedTimes gb + 1)) gb, [])).
Proof.
  unfold countFailure, failedTimeoutInterval, maxFailedTimes. simpl.
  by rewrite Since_window.
Qed.

(** X17: single flight. While a sweep is in flight, no goroutine started
    by [onDialFailed] asks a provider for its health check or touches the
    flag; failures are still counted, past the threshold too. *)
Theorem X17_in_flight_no_second_sweep now g gb :
  failedTesting gb = true →
  (runGoroutine now g gb).2 = [] ∧
  providers (runGoroutine now g gb).1 = providers gb ∧
  failedTesting (runGoroutine now g gb).1 = true ∧
  (g = GoCountFailure → 4 ≤ failedTimes gb < 2 ^ 63 - 1 →
   now - failedTime gb ≤ 5 * gotime.Second →
   failedTimes (runGoroutine now g gb).1 = failedTimes gb + 1).
Proof.
  intros Hflag. destruct g; simpl.
  - rewrite healthCheck_eq, Hflag. by split_and!.
  - split_and!.
    + rewrite countFailure_unfold, healthCheck_eq. simpl. rewrite Hflag.
      by repeat case_match.
    + rewrite countFailure_unfold, healthCheck_eq. simpl. rewrite Hflag.
      by repeat case_match.
    + rewrite countFailure_unfold, healthCheck_eq. simpl. rewrite Hflag.
      by repeat case_match.
    + intros _ Hn Hin. rewrite countFailure_threshold, healthCheck_eq by done.
      simpl. by rewrite Hflag.
Qed.

(** X18: when a counted failure starts a sweep. With the counter in the
    range of [int], the goroutine runs the sweep exactly when the counter
    stood at 4 or more (short of the largest [int]), the failure comes no
    later than 5 seconds after the recorded first one, and no sweep is in
    flight; in every other case it asks nothing of any provider. *)
Theorem X18_sweep_iff_threshold now gb :
  intRange (failedTimes gb) →
  (sweeps (countFailure now gb).2 = 1%nat ↔
   4 ≤ failedTimes gb < 2 ^ 63 - 1 ∧
   now - failedTime gb ≤ 5 * gotime.Second ∧
   failedTesting gb = false) ∧
  (sweeps (countFailure now gb).2 ≠ 1%nat → (countFailure now gb).2 = []).
Proof.
  intros Hr.
  destruct (decide (4 ≤ failedTimes gb < 2 ^ 63 - 1 ∧
                    now - failedTime gb ≤ 5 * gotime.Second)) as [[Hn Hin]|Hno].
  - rewrite countFailure_threshold, healthCheck_eq by done. simpl.
    destruct (failedTesting gb) eqn:Hflag; simpl.
    + split; [|done]. split; [done|]. by intros (_ & _ & [=]).
    + change (EvStoreFailedTesting true :: ?l) with
        ([EvStoreFailedTesting true] ++ l).
      rewrite !sweeps_app, sweeps_provider_events. simpl.
      split; [|done]. by split.
  - assert ((countFailure now gb).2 = []) as ->.
    { rewrite countFailure_unfold. unfold intRange in Hr.
      destruct (decide (failedTimes gb = 2 ^ 63 - 1)) as [Hmax|Hmax].
      - rewrite Hmax. by repeat case_match.
      - rewrite int_wrap_small by (unfold intRange; lia).
        destruct (Z.eqb_spec (failedTimes gb + 1) 1); [done|].
        destruct (Z.ltb_spec (5 * gotime.Second) (now - failedTime gb));
          [done|].
        destruct (Z.leb_spec 5 (failedTimes gb + 1)); [|done].
        exfalso. apply Hno. lia. }
    split; [|done]. split; [done|]. intros (? & ? & _). exfalso.
    by apply Hno.
Qed.

(** X19: the failure that finds the window over is not counted. It puts
    the counter to zero and leaves the recorded time; the window of the
    next failure starts with that failure, which counts as the first. *)
Theorem X19_late_failure_dropped now1 now2 gb :
  intRange (failedTimes gb) → failedTimes gb ≠ 0 →
  5 * gotime.Second < now1 - failedTime gb →
  countFailure now1 gb = (set_failedTimes 0 gb, []) ∧
  countFailure now2 (countFailure now1 gb).1 =
    (set_failedTime now2 (set_failedTimes 1 gb), []).
Proof.
  intros Hr Hn Hlate. rewrite countFailure_expired by done.
  split; [done|]. by rewrite countFailure_first.
Qed.

End failure_more.

(** ** Sequential runs *)
Section runs_facts.

Context {P : Type} `{!types.ProxyProvider P}.
Variable tunnel_Proxies : string → C.Proxy.
Variable regexp2_MustCompile : string → option regexp2.Regexp.

Implicit Types (gb : GroupBase P) (now : gotime.Time).

Lemma healthCheck_atRest gb (n : Z) :
  atRest gb → atRest (healthCheck (set_failedTimes n gb)).1.
Proof.
  intros ([Hs Hv] & Hflag & _). rewrite healthCheck_eq. simpl.
  rewrite Hflag. unfold atRest, wellFormed. simpl.
  rewrite length_fmap. split_and!; (done || lia).
Qed.

Lemma countFailure_atRest now gb :
  atRest gb → atRest (countFailure now gb).1.
Proof.
  intros Hrest. pose proof Hrest as ([Hs Hv] & Hflag & Hn).
  destruct (decide (failedTimes gb = 0)) as [H0|H0].
  { rewrite countFailure_first by done. unfold atRest, wellFormed. simpl.
    split_and!; (done || lia). }
  destruct (Z.le_gt_cases (now - failedTime gb) (5 * gotime.Second)).
  - destruct (decide (failedTimes gb = 4)) as [H4|H4].
    + rewrite countFailure_threshold by lia. by apply healthCheck_atRest.
    + rewrite countFailure_below by lia. unfold atRest, wellFormed. simpl.
      split_and!; (done || lia).
  - rewrite countFailure_expired by (unfold intRange; lia).
    unfold atRest, wellFormed. simpl. split_and!; (done || lia).
Qed.

Lemma step_atRest gb gb' :
  step tunnel_Proxies gb gb' → atRest gb →
  atRest gb' ∧ filterRegs gb' = filterRegs gb ∧
  length (providers gb') = length (providers gb).
Proof.
  intros Hstep Hrest. pose proof Hrest as (Hwf & Hflag & Hn).
  assert (∀ touch r gb1,
            GetProxies tunnel_Proxies touch gb = Some (r, gb1) →
            atRest gb1 ∧ filterRegs gb1 = filterRegs gb ∧
            length (providers gb1) = length (providers gb)) as Hget.
  { intros touch r gb1 Hg.
    pose proof (GetProxies_wellFormed _ _ _ _ _ Hwf Hg) as Hwf1.
    rewrite GetProxies_total in Hg by done. injection Hg as _ Heq.
    assert (failedTesting gb1 = failedTesting gb ∧
            failedTimes gb1 = failedTimes gb ∧
            filterRegs gb1 = filterRegs gb ∧
            providers gb1 = touched touch (providers gb)) as (Ht & Hc & Hf & Hp).
    { subst gb1. destruct (filterRegs gb) eqn:Hregs; simpl; by rewrite ?Hregs. }
    unfold atRest. rewrite Ht, Hc, Hp, touched_length.
    split_and!; (done || lia). }
  destruct Hstep as [touch gb r gb' Hg|ctx url gb res gb' Hu|gb
                    |adapterType err now gb|gb|i pd gb].
  - by eapply Hget.
  - unfold URLTest, bind, ret in Hu.
    destruct (GetProxies tunnel_Proxies false gb) as [[all gb1]|] eqn:Hg;
      [|done].
    injection Hu as _ <-. by eapply Hget.
  - destruct Hwf as [Hs Hv]. unfold atRest, wellFormed, GroupBase_Touch.
    simpl. rewrite !length_fmap. split_and!; (done || lia).
  - unfold reportFailure, onDialFailed.
    destruct (_ || _); [by split_and!|].
    destruct (gostrings.Contains _ _); simpl; unfold andThen, skip; simpl.
    + rewrite healthCheck_eq, Hflag. simpl.
      destruct Hwf as [Hs Hv]. unfold atRest, wellFormed. simpl.
      rewrite !length_fmap. split_and!; (done || lia).
    + split; [by apply countFailure_atRest|].
      rewrite countFailure_unfold, healthCheck_eq. simpl. rewrite Hflag.
      repeat case_match; simpl; rewrite ?length_fmap; by split.
  - unfold onDialSuccess. rewrite Hflag. simpl.
    unfold atRest. simpl. split_and!; (done || lia).
  - destruct Hwf as [Hs Hv]. unfold atRest, wellFormed. simpl.
    rewrite !length_insert. split_and!; (done || lia).
Qed.

(** X20: in a sequential run that starts from a new group, whatever is
    called and however the providers change in between, at every moment of
    rest the group is well formed, no sweep is in flight, the counter is
    between 0 and 4, and the filters and the number of providers are those
    of the start; so [GetProxies] never fails on an index. *)
Theorem X20_sequential_invariant (opt : GroupBaseOption P) gb0 gb :
  NewGroupBase regexp2_MustCompile opt = Some gb0 →
  rtc (step tunnel_Proxies) gb0 gb →
  wellFormed gb ∧ failedTesting gb = false ∧ 0 ≤ failedTimes gb ≤ 4 ∧
  filterRegs gb = filterRegs gb0 ∧
  length (providers gb) = length (opt_providers opt) ∧
  ∀ touch, is_Some (GetProxies tunnel_Proxies touch gb).
Proof.
  intros Hnew Hrun.
  assert (atRest gb ∧ filterRegs gb = filterRegs gb0 ∧
          length (providers gb) = length (opt_providers opt)) as (Hr & ? & ?).
  { revert gb Hrun. apply rtc_ind_r.
    - apply NewGroupBase_fresh in Hnew as (? & Hp & Hc & Ht & _).
      unfold atRest. rewrite Hp, Hc, Ht. by split_and!.
    - intros gb1 gb2 _ Hstep (Hr & Hf & Hl).
      destruct (step_atRest _ _ Hstep Hr) as (? & ? & ?).
      split_and!; congruence. }
  destruct Hr as (Hwf & ? & ?).
  assert (∀ touch, is_Some (GetProxies tunnel_Proxies touch gb))
    by (intros touch; rewrite GetProxies_total by done; by eexists).
  split_and!; (done || lia).
Qed.

End runs_facts.

(** ** The further properties on concrete groups *)

Lemma X1_GetProxies_never_empty_witness :
  ∃ r gb', GetProxies static.fallbackRegistry true static.emptyProviders =
           Some (r, gb') ∧ r ≠ [].
Proof. apply X1_GetProxies_never_empty, group_wellFormed. Defined.

Lemma X2_GetProxies_frame_witness :
  ∃ r gb', GetProxies static.fallbackRegistry true static.mixed =
           Some (r, gb') ∧
    wellFormed gb' ∧
    providers gb' = types.Touch <$> providers static.mixed ∧
    filterRegs gb' = filterRegs static.mixed ∧
    Base_name gb' = Base_name static.mixed ∧
    failedTimes gb' = failedTimes static.mixed ∧
    failedTime gb' = failedTime static.mixed ∧
    failedTesting gb' = failedTesting static.mixed.
Proof.
  eexists _, _. split; [by vm_compute|].
  eapply (X2_GetProxies_frame static.fallbackRegistry true static.mixed);
    [apply group_wellFormed|by vm_compute].
Defined.

Lemma X3_GetProxies_repeat_witness :
  ∃ r gb', GetProxies static.fallbackRegistry true static.mixed =
           Some (r, gb') ∧
           GetProxies static.fallbackRegistry false gb' = Some (r, gb').
Proof.
  eexists _, _. split; [by vm_compute|].
  eapply (X3_GetProxies_repeat static.fallbackRegistry true static.mixed);
    [apply group_wellFormed|by vm_compute].
Defined.

Lemma X4_versions_current_witness :
  ∃ r gb', GetProxies static.fallbackRegistry false static.mixed =
           Some (r, gb') ∧
           versions gb' = types.Version <$> providers gb'.
Proof.
  eexists _, _. split; [by vm_compute|].
  eapply (X4_versions_current static.fallbackRegistry false static.mixed);
    [apply group_wellFormed|done|by vm_compute].
Defined.

Lemma X5_slot_hit_or_miss_witness :
  ∃ r gb', GetProxies static.fallbackRegistry false static.overlapping =
           Some (r, gb') ∧
    proxies gb' !! 0%nat =
    Some (if decide (0%N = 1%N) then []
          else firstSeenWins ∅
                 (matchingEach (filterRegs static.overlapping)
                    [static.alive "ab" 10; static.alive "a" 20;
                     static.alive "c" 30])).
Proof.
  eexists _, _. split; [by vm_compute|].
  refine (X5_slot_hit_or_miss static.fallbackRegistry false
            static.overlapping _ _ 0
            (static.make [static.alive "ab" 10; static.alive "a" 20;
                          static.alive "c" 30] 1 types.HTTP) 0%N []
            (group_wellFormed _ _) _ _ eq_refl eq_refl eq_refl _);
    [done|by vm_compute|done].
Defined.

Lemma X7_no_filter_no_cache_witness :
  ∃ r gb', GetProxies static.fallbackRegistry false static.sharedName =
           Some (r, gb') ∧
    r = (if decide (mjoin (types.Proxies <$>
                      touched false (providers static.sharedName)) = [])
         then [static.fallbackRegistry "COMPATIBLE"]
         else mjoin (types.Proxies <$>
                touched false (providers static.sharedName))) ∧
    proxies gb' = proxies static.sharedName ∧
    versions gb' = versions static.sharedName ∧
    (false = false → gb' = static.sharedName).
Proof. by apply X7_no_filter_no_cache. Defined.

Lemma X9_NewGroupBase_patterns_witness :
  (∃ gb, NewGroupBase static.compile static.plain = Some gb ∧
         filterRegs gb = []) ∧
  (∃ pieces,
     gostrings.Join pieces "`"%char = "a`b" ∧
     Forall (λ piece, gostrings.hasByte piece "`"%char = false) pieces ∧
     pieces ≠ [] ∧
     (NewGroupBase static.compile static.unversioned = None ↔
      ∃ piece, piece ∈ pieces ∧ static.compile piece = None) ∧
     ∀ gb, NewGroupBase static.compile static.unversioned = Some gb →
           Forall2 (λ piece reg, static.compile piece = Some reg)
             pieces (filterRegs gb) ∧
           filterRegs gb ≠ []).
Proof.
  split.
  - by apply (proj1 (X9_NewGroupBase_patterns static.compile static.plain)).
  - by apply (proj2 (X9_NewGroupBase_patterns static.compile
                       static.unversioned)).
Defined.

Lemma X10_Touch_then_GetProxies_witness :
  GetProxies static.fallbackRegistry false (GroupBase_Touch static.mixed) =
  GetProxies static.fallbackRegistry true static.mixed.
Proof. apply X10_Touch_then_GetProxies, group_wellFormed. Defined.

Lemma X11_new_group_version_zero_witness :
  ∃ gb, NewGroupBase static.compile static.unversioned = Some gb ∧
    ∃ gb', GetProxies static.fallbackRegistry false gb =
           Some ([static.fallbackRegistry "COMPATIBLE"], gb').
Proof.
  eexists. split; [by vm_compute|].
  eapply (X11_new_group_version_zero static.fallbackRegistry static.compile
            false static.unversioned); [by vm_compute|done|].
  by repeat constructor.
Defined.

Lemma X12_last_writer_wins_witness :
  (collectDelays static.background "http://probe"
     ([static.alive "a" 1] ++
      static.alive "a" 2 :: [static.dead "a"; static.alive "b" 3])).1
    !! "a" = Some 2.
Proof.
  refine (X12_last_writer_wins static.background "http://probe"
            [static.alive "a" 1] (static.alive "a" 2)
            [static.dead "a"; static.alive "b" 3] 2 eq_refl _).
  intros q Hq Ha.
  apply elem_of_cons in Hq as [->|Hq]; [done|].
  apply elem_of_cons in Hq as [->|Hq]; [done|].
  by apply elem_of_nil in Hq.
Defined.

Lemma X13_schedule_independent_witness :
  URLTest static.fallbackRegistry static.background "http://probe"
    static.twoOfThree =
  Some (collectDelays static.background "http://probe"
          (reverse [static.alive "a" 120; static.alive "b" 80;
                    static.dead "c"]),
        static.twoOfThree).
Proof.
  refine (X13_schedule_independent static.fallbackRegistry static.background
            "http://probe" static.twoOfThree
            [static.alive "a" 120; static.alive "b" 80; static.dead "c"]
            static.twoOfThree _ _ eq_refl _ _).
  - change (NoDup ["a"; "b"]).
    repeat (apply NoDup_cons; split; [set_solver|]). apply NoDup_nil_2.
  - exists [static.alive "a" 120; static.alive "b" 80; static.dead "c"],
      (reverse [static.alive "a" 120; static.alive "b" 80; static.dead "c"]).
    split_and!; [by vm_compute|apply reverse_Permutation|done].
Defined.

Lemma X14_URLTest_probes_fallback_witness :
  ∃ gb', URLTest static.fallbackRegistry static.background "http://probe"
           static.emptyProviders =
         Some (({["COMPATIBLE" := 0]}, None), gb').
Proof.
  refine (X14_URLTest_probes_fallback static.fallbackRegistry
            static.background "http://probe" static.emptyProviders
            (group_wellFormed _ _) eq_refl).
Defined.

Lemma X15_refused_is_substring_witness :
  (onDialFailed C.Routed static.connRefused static.healthy =
     (static.healthy, [GoHealthCheck]) ↔
   ∃ pre post,
     static.connRefused = pre +:+ "connection refused" +:+ post) ∧
  (onDialFailed C.Routed static.connRefused static.healthy =
     (static.healthy, [GoCountFailure]) ↔
   ¬ ∃ pre post,
       static.connRefused = pre +:+ "connection refused" +:+ post).
Proof.
  exact (X15_refused_is_substring C.Routed static.connRefused static.healthy
           Routed_routable).
Defined.

Lemma X16_sentinel_kinds_ignored_witness :
  onDialFailed C.Direct static.connRefused static.healthy =
    (static.healthy, []) ∧
  reportFailure C.Direct static.connRefused (1 * gotime.Second)
    static.healthy = (static.healthy, []).
Proof.
  apply X16_sentinel_kinds_ignored. by left.
Defined.

Lemma X17_in_flight_no_second_sweep_witness :
  let gb := set_failedTesting true (set_failedTimes 4 static.healthy) in
  (runGoroutine (1 * gotime.Second) GoCountFailure gb).2 = [] ∧
  providers (runGoroutine (1 * gotime.Second) GoCountFailure gb).1 =
    providers gb ∧
  failedTesting (runGoroutine (1 * gotime.Second) GoCountFailure gb).1 =
    true ∧
  failedTimes (runGoroutine (1 * gotime.Second) GoCountFailure gb).1 = 5.
Proof.
  intros gb.
  destruct (X17_in_flight_no_second_sweep (1 * gotime.Second) GoCountFailure
              gb eq_refl) as (Ht & Hp & Hf & Hc).
  split_and!; [done..|].
  apply Hc; [done|simpl; lia|unfold gotime.Second; simpl; lia].
Defined.

Lemma X18_sweep_iff_threshold_witness :
  (sweeps (countFailure (1 * gotime.Second)
             (set_failedTimes 4 static.healthy)).2 = 1%nat ↔
   4 ≤ 4 < 2 ^ 63 - 1 ∧
   1 * gotime.Second - 0 ≤ 5 * gotime.Second ∧ false = false) ∧
  (sweeps (countFailure (1 * gotime.Second)
             (set_failedTimes 4 static.healthy)).2 ≠ 1%nat →
   (countFailure (1 * gotime.Second)
      (set_failedTimes 4 static.healthy)).2 = []).
Proof.
  apply (X18_sweep_iff_threshold (1 * gotime.Second)
           (set_failedTimes 4 static.healthy)).
  unfold intRange. simpl. lia.
Defined.

Lemma X19_late_failure_dropped_witness :
  countFailure (6 * gotime.Second) (set_failedTimes 3 static.healthy) =
    (set_failedTimes 0 (set_failedTimes 3 static.healthy), []) ∧
  countFailure (7 * gotime.Second)
    (countFailure (6 * gotime.Second)
       (set_failedTimes 3 static.healthy)).1 =
    (set_failedTime (7 * gotime.Second)
       (set_failedTimes 1 (set_failedTimes 3 static.healthy)), []).
Proof.
  apply X19_late_failure_dropped;
    unfold intRange, gotime.Second; simpl; lia.
Defined.

Lemma X20_sequential_invariant_witness :
  ∃ gb0, NewGroupBase static.compile static.unversioned = Some gb0 ∧
    let gb := (reportFailure C.Routed static.timeout (1 * gotime.Second)
                 gb0).1 in
    wellFormed gb ∧ failedTesting gb = false ∧ 0 ≤ failedTimes gb ≤ 4 ∧
    filterRegs gb = filterRegs gb0 ∧
    length (providers gb) = length (opt_providers static.unversioned) ∧
    ∀ touch, is_Some (GetProxies static.fallbackRegistry touch gb).
Proof.
  eexists. split; [by vm_compute|].
  eapply (X20_sequential_invariant static.fallbackRegistry static.compile
            static.unversioned); [by vm_compute|].
  eapply rtc_l; [apply step_onDialFailed|apply rtc_refl].
Defined.

(** ** Resolve: where the backends come from and how they are ordered *)
Section order_facts.

Context {P : Type} `{!types.ProxyProvider P}.
Variable tunnel_Proxies : string → C.Proxy.

Implicit Types (gb : GroupBase P) (pd : P) (p : C.Proxy).
Implicit Types (l : list C.Proxy) (regs : list regexp2.Regexp).

#[local] Abbreviation fallback := (tunnel_Proxies "COMPATIBLE").

(** X21: [GetProxies] invents no backend. What it returns is the fallback
    alone, or else every backend returned is listed by a provider as the
    call finds it, or sits in the cache slot of a provider that is not of
    the passthrough kind and whose cached version is current. *)
Theorem X21_GetProxies_provenance touch gb r gb' p :
  wellFormed gb →
  GetProxies tunnel_Proxies touch gb = Some (r, gb') →
  p ∈ r →
  r = [fallback] ∨
  (∃ pd, pd ∈ providers gb' ∧ p ∈ types.Proxies pd) ∨
  (∃ i pd slot,
     providers gb' !! i = Some pd ∧ proxies gb !! i = Some slot ∧
     versions gb !! i = Some (types.Version pd) ∧
     types.VehicleType_of pd ≠ types.Compatible ∧ p ∈ slot).
Proof.
  intros Hwf Hget Hp.
  rewrite GetProxies_total in Hget by done. injection Hget as <- <-.
  unfold resolved in *.
  destruct (combined touch gb) as [|q all] eqn:Hall; [by left|]. right.
  assert (p ∈ combined touch gb) as Hin.
  { rewrite Hall. destruct (secondPass gb); [|done].
    by apply elem_of_crossProviderPass in Hp. }
  clear Hp Hall. unfold combined in Hin.
  destruct (filterRegs gb) as [|reg regs] eqn:Hregs.
  - left. apply list_elem_of_join in Hin as (ps & Hps & Hin).
    apply list_elem_of_fmap in Hin as (pd & -> & Hpd). by exists pd.
  - apply elem_of_refreshed_slots in Hin
      as (i & pd & v & slot & Hpd & Hv & Hslot & Hin).
    unfold slotAfter in Hin.
    assert (pd ∈ providers (refreshed touch gb)) as Hmem
      by (rewrite refreshed_providers; by eapply list_elem_of_lookup_2).
    destruct (decide (types.VehicleType_of pd = types.Compatible)).
    { left. by exists pd. }
    destruct (decide (v ≠ types.Version pd)) as [Hne|Heq].
    + left. exists pd. split; [done|].
      rewrite filterProxies_eq in Hin.
      apply elem_of_firstSeenWins in Hin as [Hin _].
      by apply elem_of_matchingEach in Hin as [? _].
    + apply dec_stable in Heq. subst v. right.
      exists i, pd, slot. by rewrite refreshed_providers.
Qed.

Lemma groupedBy_firstSeenWins regs l :
  ∀ S : gset string,
  groupedBy regs l (firstSeenWins S (matchingEach regs l)).
Proof.
  induction regs as [|r regs IH]; intros S; [done|].
  set (hit := filter (λ p, matched r (C.Name p) = true) l).
  exists (firstSeenWins S hit),
         (firstSeenWins (list_to_set (names hit) ∪ S) (matchingEach regs l)).
  split_and!.
  - unfold matchingEach. rewrite bind_cons. by rewrite firstSeenWins_app.
  - apply Forall_forall. intros p [Hp _]%elem_of_firstSeenWins.
    by apply list_elem_of_filter in Hp as [? _].
  - etrans; [apply sublist_firstSeenWins|]. apply sublist_filter.
  - apply Forall_forall. intros p [Hp Hout]%elem_of_firstSeenWins.
    apply elem_of_matchingEach in Hp as [Hp _].
    apply not_true_is_false. intros Hm. apply Hout.
    rewrite elem_of_union, elem_of_list_to_set. left.
    apply list_elem_of_fmap_2. by apply list_elem_of_filter.
  - apply IH.
Qed.

(** X22: the order of the filters decides the order of the result. The
    list filtered for a provider is grouped by filter: the backends
    matching the first filter in the order of the provider's list, then
    those of the rest matching the second, and so on. The second pass
    gives such a grouped list followed by the backends that no filter
    matches, in the order of the combined list. *)
Theorem X22_grouped_by_filter regs l :
  groupedBy regs l (filterProxies regs l) ∧
  ∃ hits misses,
    crossProviderPass regs l = hits ++ misses ∧
    groupedBy regs l hits ∧
    Forall (λ p, matchesAny regs (C.Name p) = false) misses ∧
    misses `sublist_of` l.
Proof.
  split.
  - rewrite filterProxies_eq. apply groupedBy_firstSeenWins.
  - exists (firstSeenWins ∅ (matchingEach regs l)),
           (firstSeenWins ∅ (unmatchedOf regs l)).
    split_and!.
    + apply crossProviderPass_eq.
    + apply groupedBy_firstSeenWins.
    + apply Forall_forall. intros p [Hp _]%elem_of_firstSeenWins.
      by apply list_elem_of_filter in Hp as [? _].
    + etrans; [apply sublist_firstSeenWins|]. apply sublist_filter.
Qed.

End order_facts.

Lemma X21_GetProxies_provenance_witness :
  ∃ r gb', GetProxies static.fallbackRegistry false static.mixed =
           Some (r, gb') ∧
    (r = [static.fallbackRegistry "COMPATIBLE"] ∨
     (∃ pd, pd ∈ providers gb' ∧ static.alive "a1" 20 ∈ types.Proxies pd) ∨
     (∃ i pd slot,
        providers gb' !! i = Some pd ∧
        proxies static.mixed !! i = Some slot ∧
        versions static.mixed !! i = Some (types.Version pd) ∧
        types.VehicleType_of pd ≠ types.Compatible ∧
        static.alive "a1" 20 ∈ slot)).
Proof.
  eexists _, _. split; [by vm_compute|].
  eapply (X21_GetProxies_provenance static.fallbackRegistry false
            static.mixed); [apply group_wellFormed|by vm_compute|].
  by left.
Defined.

Example mixed_grouped :
  names (crossProviderPass (filterRegs static.mixed)
           (combined true static.mixed)) = ["a1"; "a2"; "b1"; "c"].
Proof. by vm_compute. Qed.
